(** * Minesweeper knowledge base: a shallow embedding of [minesweeper.py]

    The development follows the two classes of the knowledge base.
    [Sentence] is embedded as a record of values with its methods as
    functions.  [MinesweeperAI] is a record that carries, next to the three
    cell sets, a store of sentence objects and the list [knowledge] of
    references into it: [add_knowledge] shares the derived sentence objects
    between [self.knowledge] and the local list [additional_knowledge],
    mutates them in place and removes them with [list.remove], which
    compares by [__eq__] and not by identity.

    Python integers are [Z], sets of cells are [gset], and the two container
    methods that can raise ([set.remove], [list.remove]) return a [result].
    A loop over a set is a fold over [elements]; the closed forms proved
    below show that the enumeration order does not matter.

    The board class [Minesweeper] is embedded in an [outcome] monad: list
    indexing can raise [IndexError], [random.randrange] can raise on an
    empty range, and the placement loop of the constructor runs on a list
    of random draws, so that a loop that has not ended when the draws are
    used up is told apart from one that returned. *)

From Stdlib Require Import ZArith Lia.
From stdpp Require Import base gmap sets list.

Set Warnings "-clear-no-such-hyp".

(** ** Python values *)

(** A board cell is a tuple [(i, j)] of Python integers. *)
Definition cell : Type := (Z * Z)%type.

(** The two exceptions the container methods used by the program can raise:
    [set.remove] on a missing element and [list.remove] on a missing item. *)
Inductive PyError : Type :=
| KeyError
| ValueError.

Inductive result (A : Type) : Type :=
| Ok (a : A)
| Raise (e : PyError).
Arguments Ok {A} a.
Arguments Raise {A} e.

#[global] Instance result_ret : MRet result := λ A a, Ok a.
#[global] Instance result_bind : MBind result := λ A B f m,
  match m with
  | Ok a => f a
  | Raise e => Raise e
  end.

(** [for x in xs: acc = body(acc, x)] where the body may raise. *)
Fixpoint for_each {A B : Type} (body : A → B → result A) (acc : A) (xs : list B)
  : result A :=
  match xs with
  | [] => Ok acc
  | x :: xs' => acc' ← body acc x; for_each body acc' xs'
  end.

(** [s.remove(c)] on a Python set: raises [KeyError] when [c] is absent. *)
Definition set_remove (s : gset cell) (c : cell) : result (gset cell) :=
  if decide (c ∈ s) then Ok (s ∖ {[c]}) else Raise KeyError.

(** ** class Sentence *)

Module Sentence.

(** [Sentence(cells, count)] copies its argument ([set(cells)]): every
    sentence object owns its set of cells. *)
Record t : Type := mk { cells : gset cell; count : Z }.

#[global] Instance t_eq_dec : EqDecision t.
Proof. solve_decision. Defined.

#[global] Instance t_inhabited : Inhabited t := populate (mk ∅ 0).

(** [__eq__]: structural equality on cells and count. *)
Definition __eq__ (self other : t) : bool :=
  bool_decide (cells self = cells other) && bool_decide (count self = count other).

Definition known_mines (self : t) : gset cell :=
  if decide (Z.of_nat (size (cells self)) = count self) then cells self else ∅.

Definition known_safes (self : t) : gset cell :=
  if decide (count self = 0%Z) then cells self else ∅.

Definition mark_mine (self : t) (c : cell) : t :=
  if decide (c ∈ cells self)
  then mk (cells self ∖ {[c]}) (count self - 1)
  else self.

Definition mark_safe (self : t) (c : cell) : t :=
  if decide (c ∈ cells self)
  then mk (cells self ∖ {[c]}) (count self)
  else self.

End Sentence.

(** ** class MinesweeperAI *)

(** A reference to a sentence object: its index in the store. *)
Abbreviation ref := nat (only parsing).

Record MinesweeperAI : Type := mkAI {
  height : Z;
  width : Z;
  moves_made : gset cell;
  mines : gset cell;
  safes : gset cell;
  knowledge : list ref;
  store : list Sentence.t
}.

#[global] Instance MinesweeperAI_eq_dec : EqDecision MinesweeperAI.
Proof. solve_decision. Defined.

(** [MinesweeperAI(height, width)] *)
Definition __init__ (height width : Z) : MinesweeperAI :=
  mkAI height width ∅ ∅ ∅ [] [].

Definition with_moves_made (ai : MinesweeperAI) (m : gset cell) : MinesweeperAI :=
  mkAI (height ai) (width ai) m (mines ai) (safes ai) (knowledge ai) (store ai).
Definition with_mines (ai : MinesweeperAI) (m : gset cell) : MinesweeperAI :=
  mkAI (height ai) (width ai) (moves_made ai) m (safes ai) (knowledge ai) (store ai).
Definition with_safes (ai : MinesweeperAI) (s : gset cell) : MinesweeperAI :=
  mkAI (height ai) (width ai) (moves_made ai) (mines ai) s (knowledge ai) (store ai).
Definition with_knowledge (ai : MinesweeperAI) (k : list ref) : MinesweeperAI :=
  mkAI (height ai) (width ai) (moves_made ai) (mines ai) (safes ai) k (store ai).
Definition with_store (ai : MinesweeperAI) (h : list Sentence.t) : MinesweeperAI :=
  mkAI (height ai) (width ai) (moves_made ai) (mines ai) (safes ai) (knowledge ai) h.

(** The sentence object a reference denotes. *)
Definition deref (h : list Sentence.t) (r : ref) : Sentence.t := h !!! r.

(** [for sentence in self.knowledge: sentence.m(cell)]: every object in the
    list is updated in place; an object listed twice is visited twice. *)
Definition update_all (m : Sentence.t → cell → Sentence.t) (c : cell)
    (k : list ref) (h : list Sentence.t) : list Sentence.t :=
  foldl (λ h r, alter (λ s, m s c) r h) h k.

Definition mark_mine (ai : MinesweeperAI) (c : cell) : MinesweeperAI :=
  let ai := with_mines ai (mines ai ∪ {[c]}) in
  with_store ai (update_all Sentence.mark_mine c (knowledge ai) (store ai)).

Definition mark_safe (ai : MinesweeperAI) (c : cell) : MinesweeperAI :=
  let ai := with_safes ai (safes ai ∪ {[c]}) in
  with_store ai (update_all Sentence.mark_safe c (knowledge ai) (store ai)).

(** A Python set object handled by [add_knowledge]: [known_safes] and
    [known_mines] return either the very set of the sentence ([return
    self.cells], an alias that later marking shrinks) or a fresh [set()]. *)
Inductive setobj : Type :=
| CellsOf (r : ref)
| Fresh (s : gset cell).

Definition contents (h : list Sentence.t) (o : setobj) : gset cell :=
  match o with
  | CellsOf r => Sentence.cells (deref h r)
  | Fresh s => s
  end.

Definition known_safes_of (h : list Sentence.t) (r : ref) : setobj :=
  if decide (Sentence.count (deref h r) = 0%Z) then CellsOf r else Fresh ∅.

Definition known_mines_of (h : list Sentence.t) (r : ref) : setobj :=
  if decide (Z.of_nat (size (Sentence.cells (deref h r))) = Sentence.count (deref h r))
  then CellsOf r else Fresh ∅.

(** [bin = set(); for x in tiles: bin.add(x)] *)
Definition copy_set (tiles : gset cell) : gset cell :=
  foldl (λ bin x, bin ∪ {[x]}) ∅ (elements tiles).

(** [for k in range(h): for l in range(w): all_moves.add((k, l))] *)
Definition grid (h w : Z) : gset cell :=
  foldl (λ acc k, foldl (λ acc l, acc ∪ {[(k, l)]}) acc (seqZ 0 w)) ∅ (seqZ 0 h).

(** The set literal [L] of the eight cells around [(i, j)]. *)
Definition around (c : cell) : gset cell :=
  let '(i, j) := c in
  {[ (i+1, j); (i+1, j+1); (i+1, j-1); (i, j-1); (i, j+1);
     (i-1, j-1); (i-1, j); (i-1, j+1) ]}%Z.

(** [for cell in L: if cell in all_moves: neighbors.add(cell)] *)
Definition in_grid (all_moves L : gset cell) : gset cell :=
  foldl (λ nb c, if decide (c ∈ all_moves) then nb ∪ {[c]} else nb) ∅ (elements L).

(** The loop that fills [eliminated_cells] and lowers the count [c]. *)
Definition eliminate (ai : MinesweeperAI) (neighbors : gset cell) (count : Z)
  : gset cell * Z :=
  foldl (λ '(eliminated, c) x,
           let '(eliminated, c) :=
             if decide (x ∈ mines ai) then (eliminated ∪ {[x]}, (c - 1)%Z)
             else (eliminated, c) in
           let eliminated :=
             if decide (x ∈ safes ai) then eliminated ∪ {[x]} else eliminated in
           let eliminated :=
             if decide (x ∈ moves_made ai) then eliminated ∪ {[x]} else eliminated in
           (eliminated, c))
        (∅, count) (elements neighbors).

(** Lines 197-227: record the move, build the new sentence, append it.
    Returns the state and the reference of [new_sentence]. *)
Definition observe (ai : MinesweeperAI) (c : cell) (count : Z)
  : result (MinesweeperAI * ref) :=
  let ai := with_moves_made ai (moves_made ai ∪ {[c]}) in
  let ai := mark_safe ai c in
  let all_moves := grid (height ai) (width ai) in
  let neighbors := in_grid all_moves (around c) in
  let '(eliminated_cells, c') := eliminate ai neighbors count in
  neighbors ← (if decide (size eliminated_cells ≠ 0)
               then for_each set_remove neighbors (elements eliminated_cells)
               else Ok neighbors);
  let new_sentence := length (store ai) in
  let ai := with_store ai (store ai ++ [Sentence.mk neighbors c']) in
  let ai := with_knowledge ai (knowledge ai ++ [new_sentence]) in
  Ok (ai, new_sentence).

(** Lines 228-242: the conclusions of the new sentence, mines first.  Both
    tile sets are taken before any marking and measured after it. *)
Definition conclude_new (ai : MinesweeperAI) (new_sentence : ref) : MinesweeperAI :=
  let new_safe_tiles := known_safes_of (store ai) new_sentence in
  let new_mine_tiles := known_mines_of (store ai) new_sentence in
  let ai :=
    if decide (size (contents (store ai) new_mine_tiles) ≠ 0)
    then foldl mark_mine ai (elements (copy_set (contents (store ai) new_mine_tiles)))
    else ai in
  let ai :=
    if decide (size (contents (store ai) new_safe_tiles) ≠ 0)
    then foldl mark_safe ai (elements (copy_set (contents (store ai) new_safe_tiles)))
    else ai in
  ai.

(** The body of the loops at lines 246-262 and 295-309: the conclusions of
    one sentence, safes first. *)
Definition conclude (ai : MinesweeperAI) (sentence : ref) : MinesweeperAI :=
  let s_tiles := known_safes_of (store ai) sentence in
  let m_tiles := known_mines_of (store ai) sentence in
  let ai :=
    if decide (size (contents (store ai) s_tiles) ≠ 0)
    then foldl mark_safe ai (elements (copy_set (contents (store ai) s_tiles)))
    else ai in
  let ai :=
    if decide (size (contents (store ai) m_tiles) ≠ 0)
    then foldl mark_mine ai (elements (copy_set (contents (store ai) m_tiles)))
    else ai in
  ai.

(** [l.remove(x)] on a list of sentence objects: drops the first item equal
    to [x] under [Sentence.__eq__], raises [ValueError] when there is none. *)
Fixpoint list_remove (h : list Sentence.t) (x : Sentence.t) (l : list ref)
  : result (list ref) :=
  match l with
  | [] => Raise ValueError
  | r :: l' =>
      if Sentence.__eq__ (deref h r) x then Ok l'
      else l'' ← list_remove h x l'; Ok (r :: l'')
  end.

(** [for sentence in l: if len(sentence.cells) == 0: l.remove(sentence)].
    The list iterator keeps an index [i] into the list it walks, so the item
    that slides into a freed slot is skipped.  [fuel] bounds the number of
    iterations; [length l] is always enough. *)
Fixpoint remove_empty_from (h : list Sentence.t) (fuel i : nat) (l : list ref)
  : result (list ref) :=
  match fuel with
  | O => Ok l
  | S fuel' =>
      match l !! i with
      | None => Ok l
      | Some sentence =>
          if decide (size (Sentence.cells (deref h sentence)) = 0)
          then l' ← list_remove h (deref h sentence) l;
               remove_empty_from h fuel' (S i) l'
          else remove_empty_from h fuel' (S i) l
      end
  end.

Definition remove_empty (h : list Sentence.t) (l : list ref) : result (list ref) :=
  remove_empty_from h (length l) 0 l.

(** Lines 197-266: everything up to the first clean-up. *)
Definition ingest (ai : MinesweeperAI) (c : cell) (count : Z) : result MinesweeperAI :=
  '(ai, new_sentence) ← observe ai c count;
  let ai := conclude_new ai new_sentence in
  let ai := foldl conclude ai (knowledge ai) in
  k ← remove_empty (store ai) (knowledge ai);
  Ok (with_knowledge ai k).

(** The body of the two nested loops at lines 270-279: the subset rule on
    the ordered pair ([sentence1], [sentence2]).  [Sentence(cells3, count3)]
    is a new object, appended to the store; its reference goes to
    [additional_knowledge]. *)
Definition subset_rule (sentence1 sentence2 : ref)
    (acc : list Sentence.t * list ref) : list Sentence.t * list ref :=
  let '(h, additional_knowledge) := acc in
  let cells1 := Sentence.cells (deref h sentence1) in
  if negb (Sentence.__eq__ (deref h sentence2) (deref h sentence1)) then
    let cells2 := Sentence.cells (deref h sentence2) in
    if decide (cells2 ⊆ cells1) then
      let cells3 := cells1 ∖ cells2 in
      let count3 :=
        (Sentence.count (deref h sentence1) - Sentence.count (deref h sentence2))%Z in
      (h ++ [Sentence.mk cells3 count3], additional_knowledge ++ [length h])
    else (h, additional_knowledge)
  else (h, additional_knowledge).

(** Lines 269-279: the subset rule over all ordered pairs of the pool.  The
    result is the extended store and the list [additional_knowledge]. *)
Definition resolve (h : list Sentence.t) (k : list ref) : list Sentence.t * list ref :=
  foldl (λ acc sentence1,
           foldl (λ acc sentence2, subset_rule sentence1 sentence2 acc) acc k)
        (h, []) k.

(** [sentence in self.knowledge], decided by [__eq__]. *)
Definition sentence_in (h : list Sentence.t) (sentence : ref) (k : list ref) : bool :=
  existsb (λ r, Sentence.__eq__ (deref h r) (deref h sentence)) k.

(** Lines 281-284: append the derived sentences the pool does not hold yet. *)
Definition add_new (h : list Sentence.t) (k additional_knowledge : list ref) : list ref :=
  if decide (length additional_knowledge ≠ 0)
  then foldl (λ k sentence, if sentence_in h sentence k then k else k ++ [sentence])
             k additional_knowledge
  else k.

(** Lines 281-309: what follows the subset rule. *)
Definition digest (ai : MinesweeperAI) (additional_knowledge : list ref)
  : result MinesweeperAI :=
  let ai := with_knowledge ai (add_new (store ai) (knowledge ai) additional_knowledge) in
  k ← remove_empty (store ai) (knowledge ai);
  let ai := with_knowledge ai k in
  additional_knowledge ← remove_empty (store ai) additional_knowledge;
  Ok (foldl conclude ai additional_knowledge).

Definition add_knowledge (ai : MinesweeperAI) (c : cell) (count : Z)
  : result MinesweeperAI :=
  ai ← ingest ai c count;
  let '(h, additional_knowledge) := resolve (store ai) (knowledge ai) in
  digest (with_store ai h) additional_knowledge.

(** Lines 228-309: everything after the new sentence has been appended. *)
Definition after_observe (ai : MinesweeperAI) (new_sentence : ref)
  : result MinesweeperAI :=
  let ai := conclude_new ai new_sentence in
  let ai := foldl conclude ai (knowledge ai) in
  k ← remove_empty (store ai) (knowledge ai);
  let ai := with_knowledge ai k in
  let '(h, additional_knowledge) := resolve (store ai) (knowledge ai) in
  digest (with_store ai h) additional_knowledge.

(** [make_safe_move]: the first cell of [self.safes], in the iteration order
    of the set, that is not in [self.moves_made]. *)
Definition make_safe_move (ai : MinesweeperAI) : option cell :=
  if decide (size (safes ai) ≠ 0)
  then head (filter (λ c, c ∉ moves_made ai) (elements (safes ai)))
  else None.

(** [make_random_move]; [randint] is the value [random.randint(0, len(L)-1)]
    returns, an index into [L]. *)
Definition random_candidates (ai : MinesweeperAI) : gset cell :=
  let all_moves := grid (height ai - 1) (width ai - 1) in
  let impossible_moves := moves_made ai ∪ mines ai in
  all_moves ∖ impossible_moves.

Definition make_random_move (ai : MinesweeperAI) (randint : nat) : option cell :=
  let possible_move := random_candidates ai in
  if decide (size possible_move ≠ 0)
  then elements possible_move !! randint
  else None.

(** A sequence of observations fed to [add_knowledge] one after the other,
    as the game loop does. *)
Definition replay (ai : MinesweeperAI) (observations : list (cell * Z))
  : result MinesweeperAI :=
  for_each (λ ai '(c, count), add_knowledge ai c count) ai observations.

(** ** Vocabulary of the specification *)

(** A cell of the board: row in [0, height), column in [0, width). *)
Definition in_bounds (ai : MinesweeperAI) (x : cell) : Prop :=
  (0 ≤ x.1 < height ai ∧ 0 ≤ x.2 < width ai)%Z.

(** The Chebyshev distance between two cells. *)
Definition chebyshev (x y : cell) : Z :=
  Z.max (Z.abs (x.1 - y.1)) (Z.abs (x.2 - y.2)).

(** The calls a game loop makes on the knowledge base.  The two
    move-selection methods read the state and assign nothing. *)
Inductive call : Type :=
| AddKnowledge (c : cell) (count : Z)
| MakeSafeMove
| MakeRandomMove (randint : nat).

Definition perform (ai : MinesweeperAI) (op : call) : result MinesweeperAI :=
  match op with
  | AddKnowledge c count => add_knowledge ai c count
  | MakeSafeMove => let _ := make_safe_move ai in Ok ai
  | MakeRandomMove randint => let _ := make_random_move ai randint in Ok ai
  end.

Definition session (ai : MinesweeperAI) (ops : list call) : result MinesweeperAI :=
  for_each perform ai ops.

(** [ai'] is a later state of the same board: the dimensions are those of
    [ai], and [safes] and [mines] have lost nothing. *)
Definition grows (ai ai' : MinesweeperAI) : Prop :=
  height ai' = height ai ∧ width ai' = width ai
  ∧ safes ai ⊆ safes ai' ∧ mines ai ⊆ mines ai'.

(** The in-bounds neighbours of a cell, as [add_knowledge] computes them. *)
Definition neighbors (h w : Z) (c : cell) : gset cell :=
  in_grid (grid h w) (around c).

(** A sentence is true of a mine layout [M] when exactly [count] of its
    cells are mines. *)
Definition sat (M : gset cell) (s : Sentence.t) : Prop :=
  Z.of_nat (size (Sentence.cells s ∩ M)) = Sentence.count s.

(** The knowledge base agrees with the layout [M]: known mines are mines,
    safe and played cells are not, and every sentence object is true. *)
Definition consistent (M : gset cell) (ai : MinesweeperAI) : Prop :=
  mines ai ⊆ M ∧ safes ai ## M ∧ moves_made ai ## M ∧ Forall (sat M) (store ai).

(** An observation the board with layout [M] can report: the cell is not a
    mine and the count is the number of mines among its neighbours. *)
Definition truthful (M : gset cell) (h w : Z) (o : cell * Z) : Prop :=
  (o.1 ∉ M) ∧ o.2 = Z.of_nat (size (neighbors h w o.1 ∩ M)).

(** ** Invariants of the subset step and of the final loop *)

(** The working store of the subset step extends the store [h] it started
    from: sentence objects are only appended. *)
Definition store_extends (h : list Sentence.t) (acc : list Sentence.t * list ref) : Prop :=
  ∃ t, acc.1 = h ++ t.

(** The sentence {z} = 1 is among the derived ones. *)
Definition derives (z : cell) (acc : list Sentence.t * list ref) : Prop :=
  ∃ d, d ∈ acc.2 ∧ acc.1 !! d = Some (Sentence.mk {[z]} 1).

(** [z] has been marked, as a mine or as safe. *)
Definition settled (z : cell) (ai : MinesweeperAI) : Prop :=
  z ∈ mines ai ∨ z ∈ safes ai.

(** The derived object [d] still reads {z} = 1, or [z] has been marked. *)
Definition awaits (z : cell) (d : ref) (ai : MinesweeperAI) : Prop :=
  deref (store ai) d = Sentence.mk {[z]} 1 ∨ settled z ai.

(** ** class Minesweeper *)

(** What the board class can run into besides a normal return: an
    [IndexError] from list indexing, the [ValueError] of [random.randrange]
    on an empty range, or a [while] loop still running when the supply of
    random numbers given to the model is used up. *)
Inductive GameError : Type :=
| IndexError
| EmptyRange.

Inductive outcome (A : Type) : Type :=
| Returned (a : A)
| Raised (e : GameError)
| Unfinished.
Arguments Returned {A} a.
Arguments Raised {A} e.
Arguments Unfinished {A}.

#[global] Instance outcome_ret : MRet outcome := λ A a, Returned a.
#[global] Instance outcome_bind : MBind outcome := λ A B f m,
  match m with
  | Returned a => f a
  | Raised e => Raised e
  | Unfinished => Unfinished
  end.

(** [for x in xs: acc = body(acc, x)] in the [outcome] monad. *)
Fixpoint for_each_o {A B : Type} (body : A → B → outcome A) (acc : A) (xs : list B)
  : outcome A :=
  match xs with
  | [] => Returned acc
  | x :: xs' => acc' ← body acc x; for_each_o body acc' xs'
  end.

(** [l[i]]: a negative index counts from the end; out of range raises. *)
Definition getitem {A : Type} (l : list A) (i : Z) : outcome A :=
  let n := Z.of_nat (length l) in
  let k := if decide (i < 0)%Z then (n + i)%Z else i in
  if decide (0 ≤ k < n)%Z
  then from_option Returned (Raised IndexError) (l !! Z.to_nat k)
  else Raised IndexError.

(** [l[i] = x] *)
Definition setitem {A : Type} (l : list A) (i : Z) (x : A) : outcome (list A) :=
  let n := Z.of_nat (length l) in
  let k := if decide (i < 0)%Z then (n + i)%Z else i in
  if decide (0 ≤ k < n)%Z
  then Returned (<[Z.to_nat k := x]> l)
  else Raised IndexError.

(** [range(a, b)] *)
Definition range (a b : Z) : list Z := seqZ a (b - a).

(** [random.randrange(n)]: an empty range raises before the generator is
    asked for anything.  Otherwise [r] is the raw number the generator
    supplies, if the supply given to the model has one left; every value of
    [range(n)] is the image of some [r]. *)
Definition randrange (n : Z) (r : option nat) : outcome Z :=
  if decide (0 < n)%Z then
    match r with
    | Some r => Returned (Z.of_nat r `mod` n)%Z
    | None => Unfinished
    end
  else Raised EmptyRange.

Module Minesweeper.

Record t : Type := mk {
  height : Z;
  width : Z;
  mines : gset cell;
  board : list (list bool);
  mines_found : gset cell
}.

(** The two loops that fill [self.board] with rows of [False]; every row is
    a list of its own. *)
Definition empty_board (height width : Z) : list (list bool) :=
  foldl (λ board _, board ++ [foldl (λ row _, row ++ [false]) [] (range 0 width)])
        [] (range 0 height).

(** [while len(self.mines) != mines: ...]: an iteration takes the next pair
    of random numbers, the first for the row and the second for the column.
    The two calls of [randrange] come first, so that an empty range raises
    whether or not a number is left. *)
Fixpoint place_mines (height width wanted : Z) (draws : list (nat * nat))
    (mines : gset cell) (board : list (list bool))
  : outcome (gset cell * list (list bool)) :=
  if decide (Z.of_nat (size mines) ≠ wanted) then
    i ← randrange height (fst <$> head draws);
    j ← randrange width (snd <$> head draws);
    match draws with
    | [] => Unfinished
    | _ :: draws' =>
        row ← getitem board i;
        is_set ← getitem row j;
        if negb is_set then
          row' ← setitem row j true;
          board' ← setitem board i row';
          place_mines height width wanted draws' (mines ∪ {[(i, j)]}) board'
        else place_mines height width wanted draws' mines board
    end
  else Returned (mines, board).

(** [Minesweeper(height, width, mines)] *)
Definition __init__ (height width wanted : Z) (draws : list (nat * nat)) : outcome t :=
  '(mines, board) ← place_mines height width wanted draws ∅ (empty_board height width);
  Returned (mk height width mines board ∅).

Definition is_mine (self : t) (c : cell) : outcome bool :=
  let '(i, j) := c in
  row ← getitem (board self) i;
  getitem row j.

(** The body of the two loops of [nearby_mines]. *)
Definition look (self : t) (c : cell) (count : Z) (ij : cell) : outcome Z :=
  let '(i, j) := ij in
  if decide ((i, j) = c) then Returned count
  else if decide ((0 ≤ i < height self)%Z ∧ (0 ≤ j < width self)%Z) then
    row ← getitem (board self) i;
    is_set ← getitem row j;
    Returned (if is_set : bool then (count + 1)%Z else count)
  else Returned count.

Definition nearby_mines (self : t) (c : cell) : outcome Z :=
  for_each_o
    (λ count i,
       for_each_o (λ count j, look self c count (i, j)) count (range (c.2 - 1) (c.2 + 2)))
    0%Z (range (c.1 - 1) (c.1 + 2)).


(** The board and the set of mines describe the same layout, on a board of
    the stated dimensions. *)
Definition wf (self : t) : Prop :=
  length (board self) = Z.to_nat (height self)
  ∧ Forall (λ row, length row = Z.to_nat (width self)) (board self)
  ∧ mines self ⊆ grid (height self) (width self)
  ∧ ∀ i j : nat,
      (Z.of_nat i, Z.of_nat j) ∈ mines self
      ↔ ∃ row, board self !! i = Some row ∧ row !! j = Some true.

End Minesweeper.

(** ** Vocabulary for the further properties *)

(** The sentence the subset rule builds from [s1] and [s2]. *)
Definition difference (s1 s2 : Sentence.t) : Sentence.t :=
  Sentence.mk (Sentence.cells s1 ∖ Sentence.cells s2)
    (Sentence.count s1 - Sentence.count s2).

(** The subset rule applies to the ordered pair ([s1], [s2]). *)
Definition resolvable (s1 s2 : Sentence.t) : Prop :=
  s2 ≠ s1 ∧ Sentence.cells s2 ⊆ Sentence.cells s1.

(** [s] is the difference of two sentences of the pool [k] that the subset
    rule applies to. *)
Definition derived_from (h : list Sentence.t) (k : list ref) (s : Sentence.t) : Prop :=
  ∃ a b, a ∈ k ∧ b ∈ k ∧ resolvable (deref h a) (deref h b)
         ∧ s = difference (deref h a) (deref h b).

(** The sentence [s] is among the derived ones. *)
Definition listed (s : Sentence.t) (acc : list Sentence.t * list ref) : Prop :=
  ∃ d, d ∈ acc.2 ∧ acc.1 !! d = Some s.

(** Every derived reference is live and denotes a difference of two pool
    sentences. *)
Definition all_derived (h : list Sentence.t) (k : list ref)
    (acc : list Sentence.t * list ref) : Prop :=
  Forall (λ d, d < length acc.1 ∧ derived_from h k (deref acc.1 d)) acc.2.

(** No sentence of the pool mentions a cell whose status is known. *)
Definition simplified (ai : MinesweeperAI) : Prop :=
  Forall (λ r, Sentence.cells (deref (store ai) r) ## safes ai ∪ mines ai) (knowledge ai).

(** Every reference of the pool denotes an object of the store, and no
    object is listed twice. *)
Definition pool_wf (ai : MinesweeperAI) : Prop :=
  NoDup (knowledge ai) ∧ Forall (λ r, r < length (store ai)) (knowledge ai).

(** What marking leaves alone: the played cells, the list of the pool and
    the number of objects in the store. *)
Definition framed (ai ai' : MinesweeperAI) : Prop :=
  moves_made ai' = moves_made ai ∧ knowledge ai' = knowledge ai
  ∧ length (store ai') = length (store ai).

(** The references derived by the subset step are new, live and pairwise
    different. *)
Definition fresh_refs (h : list Sentence.t) (acc : list Sentence.t * list ref) : Prop :=
  length h ≤ length acc.1
  ∧ Forall (λ d, length h ≤ d < length acc.1) acc.2
  ∧ NoDup acc.2.

(** The object [n] is the sentence [s0] as the marks made since it was
    built have left it: it is in the pool unless it has no cell left, its
    cells are those of [s0] that have not been marked, and its count has
    gone down by one for every cell marked as a mine while it was still in
    the sentence, which is every cell of [s0] now in [mines] unless the
    cell had been marked safe before. *)
Definition tracks (s0 : Sentence.t) (n : ref) (ai : MinesweeperAI) : Prop :=
  n < length (store ai)
  ∧ (n ∈ knowledge ai ∨ Sentence.cells (deref (store ai) n) = ∅)
  ∧ Sentence.cells (deref (store ai) n) = Sentence.cells s0 ∖ (safes ai ∪ mines ai)
  ∧ (Sentence.count s0 - Z.of_nat (size (Sentence.cells s0 ∩ mines ai))
     ≤ Sentence.count (deref (store ai) n)
     ≤ Sentence.count s0
       - Z.of_nat (size (Sentence.cells s0 ∩ (mines ai ∖ safes ai))))%Z.

(** * Properties *)

(** ** Sentences *)

Section sentence_facts.
Import Sentence.

Lemma mark_mine_cells s c : cells (mark_mine s c) = cells s ∖ {[c]}.
Proof. unfold mark_mine. destruct (decide (c ∈ cells s)); [done | set_solver]. Qed.

Lemma mark_safe_cells s c : cells (mark_safe s c) = cells s ∖ {[c]}.
Proof. unfold mark_safe. destruct (decide (c ∈ cells s)); [done | set_solver]. Qed.

Lemma mark_safe_count s c : count (mark_safe s c) = count s.
Proof. unfold mark_safe. by case_decide. Qed.

Lemma mark_mine_idemp s c : mark_mine (mark_mine s c) c = mark_mine s c.
Proof.
  unfold mark_mine at 1. apply decide_False.
  rewrite mark_mine_cells. set_solver.
Qed.

Lemma mark_safe_idemp s c : mark_safe (mark_safe s c) c = mark_safe s c.
Proof.
  unfold mark_safe at 1. apply decide_False.
  rewrite mark_safe_cells. set_solver.
Qed.

Lemma eq_spec s1 s2 : __eq__ s1 s2 = true ↔ s1 = s2.
Proof.
  unfold __eq__. rewrite andb_true_iff, !bool_decide_eq_true.
  destruct s1, s2; simpl. split; [intros [-> ->] | intros [= -> ->]]; done.
Qed.

(** C6. [known_mines] returns the cell set exactly when its size equals the
    count and the empty set otherwise; [known_safes] returns the cell set
    exactly when the count is 0 and the empty set otherwise.  Both are
    functions of the sentence alone: the object-level calls of the knowledge
    base read the store and hand back the sentence's own set or a fresh
    empty one.  For distinct cells [a] and [b], the sentence {a,b} = 0 has
    known safes {a,b} and the sentence {a,b} = 2 has known mines {a,b}. *)
Theorem known_mines_known_safes_spec (s : t) (h : list t) (r : ref) (a b : cell) :
  a ≠ b →
  ((Z.of_nat (size (cells s)) = count s ∧ known_mines s = cells s)
   ∨ (Z.of_nat (size (cells s)) ≠ count s ∧ known_mines s = ∅))
  ∧ ((count s = 0%Z ∧ known_safes s = cells s)
     ∨ (count s ≠ 0%Z ∧ known_safes s = ∅))
  ∧ contents h (known_mines_of h r) = known_mines (deref h r)
  ∧ contents h (known_safes_of h r) = known_safes (deref h r)
  ∧ known_safes (mk {[a; b]} 0) = {[a; b]}
  ∧ known_mines (mk {[a; b]} 2) = {[a; b]}.
Proof.
  intros Hab. unfold known_mines, known_safes, known_mines_of, known_safes_of.
  split_and!.
  - case_decide; [by left | by right].
  - case_decide; [by left | by right].
  - by case_decide.
  - by case_decide.
  - done.
  - apply decide_True. cbn [cells count].
    rewrite size_union by set_solver. by rewrite !size_singleton.
Qed.

Lemma known_mines_known_safes_witness :
  let a : cell := (0, 0)%Z in
  let b : cell := (0, 1)%Z in
  known_safes (mk {[a; b]} 0) = {[a; b]} ∧ known_mines (mk {[a; b]} 2) = {[a; b]}.
Proof.
  intros a b.
  destruct (known_mines_known_safes_spec (mk ∅ 0) [] 0%nat a b) as (_ & _ & _ & _ & Hs & Hm).
  - unfold a, b. intros [= ?].
  - by split.
Defined.

(** C7. [mark_mine] removes the cell and lowers the count by one when the
    cell belongs to the sentence and changes nothing otherwise; [mark_safe]
    removes the cell and keeps the count when the cell belongs to the
    sentence and changes nothing otherwise. *)
Theorem sentence_mark_spec (s : t) (c : cell) :
  ((c ∈ cells s ∧ mark_mine s c = mk (cells s ∖ {[c]}) (count s - 1))
   ∨ ((c ∉ cells s) ∧ mark_mine s c = s))
  ∧ ((c ∈ cells s ∧ mark_safe s c = mk (cells s ∖ {[c]}) (count s))
     ∨ ((c ∉ cells s) ∧ mark_safe s c = s)).
Proof.
  unfold mark_mine, mark_safe. split; case_decide; [by left | by right | by left | by right].
Qed.

End sentence_facts.

(** ** Marking a cell in the knowledge base *)

Lemma update_all_lookup m c k h (i : nat) :
  (∀ s, m (m s c) c = m s c) →
  update_all m c k h !! i
  = if decide (i ∈ k) then (λ s, m s c) <$> h !! i else h !! i.
Proof.
  intros Hm. unfold update_all. revert h.
  induction k as [| r k IH]; intros h; simpl; [done |].
  rewrite IH, list_lookup_alter.
  destruct (decide (r = i)) as [-> | Hr].
  - rewrite (decide_True (P := i ∈ i :: k)) by constructor.
    case_decide; [| done]. rewrite <- option_fmap_compose.
    apply option_fmap_ext. intros s; simpl. apply Hm.
  - destruct (decide (i ∈ k)) as [Hk | Hk].
    + rewrite decide_True; [done | by constructor].
    + rewrite decide_False; [done |]. rewrite elem_of_cons. naive_solver.
Qed.

Lemma update_all_idemp m c k h :
  (∀ s, m (m s c) c = m s c) →
  update_all m c k (update_all m c k h) = update_all m c k h.
Proof.
  intros Hm. apply list_eq. intros i. rewrite !update_all_lookup by done.
  case_decide; [| done]. rewrite <- option_fmap_compose.
  apply option_fmap_ext. intros s; simpl. apply Hm.
Qed.

(** C10. [MinesweeperAI.mark_mine] and [MinesweeperAI.mark_safe] are
    idempotent: marking the same cell a second time leaves the whole state
    (the three cell sets, the pool and every sentence object) as the first
    marking left it. *)
Theorem mark_idempotent (ai : MinesweeperAI) (c : cell) :
  mark_mine (mark_mine ai c) c = mark_mine ai c
  ∧ mark_safe (mark_safe ai c) c = mark_safe ai c.
Proof.
  split.
  - unfold mark_mine, with_store, with_mines; simpl. f_equal.
    + set_solver.
    + apply update_all_idemp. intros s. apply mark_mine_idemp.
  - unfold mark_safe, with_store, with_safes; simpl. f_equal.
    + set_solver.
    + apply update_all_idemp. intros s. apply mark_safe_idemp.
Qed.

(** ** Iteration order of sets

    Python does not fix the order in which a set is iterated.  The loops
    [for x in bin: self.mark_safe(x)] and [for x in bin: self.mark_mine(x)]
    are folds over [elements bin]; any other enumeration of the same set
    leaves the same state. *)

Lemma sentence_ext (s1 s2 : Sentence.t) :
  Sentence.cells s1 = Sentence.cells s2 → Sentence.count s1 = Sentence.count s2 → s1 = s2.
Proof. destruct s1, s2; simpl. by intros -> ->. Qed.

Lemma mark_mine_count s c :
  Sentence.count (Sentence.mark_mine s c)
  = (Sentence.count s - if decide (c ∈ Sentence.cells s) then 1 else 0)%Z.
Proof. unfold Sentence.mark_mine. case_decide; simpl; lia. Qed.

Lemma sentence_mark_safe_comm s c1 c2 :
  Sentence.mark_safe (Sentence.mark_safe s c1) c2
  = Sentence.mark_safe (Sentence.mark_safe s c2) c1.
Proof.
  apply sentence_ext.
  - rewrite !mark_safe_cells. set_solver.
  - by rewrite !mark_safe_count.
Qed.

Lemma sentence_mark_mine_comm s c1 c2 :
  Sentence.mark_mine (Sentence.mark_mine s c1) c2
  = Sentence.mark_mine (Sentence.mark_mine s c2) c1.
Proof.
  destruct (decide (c1 = c2)) as [-> | Hne]; [done |].
  apply sentence_ext.
  - rewrite !mark_mine_cells. set_solver.
  - rewrite !mark_mine_count, !mark_mine_cells.
    repeat case_decide; try lia; set_solver.
Qed.

Lemma update_all_comm m c1 c2 k h :
  (∀ s, m (m s c1) c1 = m s c1) → (∀ s, m (m s c2) c2 = m s c2) →
  (∀ s, m (m s c1) c2 = m (m s c2) c1) →
  update_all m c2 k (update_all m c1 k h) = update_all m c1 k (update_all m c2 k h).
Proof.
  intros H1 H2 Hc. apply list_eq. intros i. rewrite !update_all_lookup by done.
  case_decide; [| done]. rewrite <- !option_fmap_compose.
  apply option_fmap_ext. intros s; simpl. apply Hc.
Qed.

Lemma mark_safe_comm ai c1 c2 :
  mark_safe (mark_safe ai c1) c2 = mark_safe (mark_safe ai c2) c1.
Proof.
  unfold mark_safe, with_store, with_safes; simpl. f_equal; [set_solver |].
  apply update_all_comm; intros s;
    [apply mark_safe_idemp | apply mark_safe_idemp | apply sentence_mark_safe_comm].
Qed.

Lemma mark_mine_comm ai c1 c2 :
  mark_mine (mark_mine ai c1) c2 = mark_mine (mark_mine ai c2) c1.
Proof.
  unfold mark_mine, with_store, with_mines; simpl. f_equal; [set_solver |].
  apply update_all_comm; intros s;
    [apply mark_mine_idemp | apply mark_mine_idemp | apply sentence_mark_mine_comm].
Qed.

Lemma foldl_any_order {A B} (f : A → B → A) (l l' : list B) :
  (∀ a x y, f (f a x) y = f (f a y) x) → l ≡ₚ l' → ∀ a, foldl f a l = foldl f a l'.
Proof.
  intros Hf. induction 1 as [| x l l' _ IH | x y l | l1 l2 l3 _ IH1 _ IH2]; intros a; simpl.
  - done.
  - apply IH.
  - by rewrite Hf.
  - by rewrite IH1.
Qed.

Lemma mark_safe_any_order ai (l l' : list cell) :
  l ≡ₚ l' → foldl mark_safe ai l = foldl mark_safe ai l'.
Proof. intros Hl. by apply foldl_any_order; [apply mark_safe_comm |]. Qed.

Lemma mark_mine_any_order ai (l l' : list cell) :
  l ≡ₚ l' → foldl mark_mine ai l = foldl mark_mine ai l'.
Proof. intros Hl. by apply foldl_any_order; [apply mark_mine_comm |]. Qed.

(** ** The grid of cells *)

Lemma elem_of_row (k : Z) (ls : list Z) (acc : gset cell) (c : cell) :
  c ∈ foldl (λ acc l, acc ∪ {[(k, l)]}) acc ls ↔ c ∈ acc ∨ (c.1 = k ∧ c.2 ∈ ls).
Proof.
  revert acc. induction ls as [| l ls IH]; intros acc; simpl.
  - set_solver.
  - rewrite IH, elem_of_union, elem_of_singleton, elem_of_cons.
    destruct c as [i j]; simpl. naive_solver.
Qed.

Lemma elem_of_rows (ks ls : list Z) (acc : gset cell) (c : cell) :
  c ∈ foldl (λ acc k, foldl (λ acc l, acc ∪ {[(k, l)]}) acc ls) acc ks
  ↔ c ∈ acc ∨ (c.1 ∈ ks ∧ c.2 ∈ ls).
Proof.
  revert acc. induction ks as [| k ks IH]; intros acc; simpl.
  - set_solver.
  - rewrite IH, elem_of_row, elem_of_cons. naive_solver.
Qed.

Lemma elem_of_grid (h w i j : Z) :
  (i, j) ∈ grid h w ↔ (0 ≤ i < h ∧ 0 ≤ j < w)%Z.
Proof.
  unfold grid. rewrite elem_of_rows, !elem_of_seqZ; simpl.
  rewrite elem_of_empty. intuition lia.
Qed.

(** ** Choosing a move *)

(** Every cell [make_random_move] can return lies in the truncated
    [(height - 1) × (width - 1)] range and is neither played nor a known
    mine. *)
Lemma make_random_move_range (ai : MinesweeperAI) (randint : nat) (i j : Z) :
  make_random_move ai randint = Some (i, j) →
  (0 ≤ i < height ai - 1 ∧ 0 ≤ j < width ai - 1)%Z
  ∧ ((i, j) ∉ moves_made ai) ∧ ((i, j) ∉ mines ai).
Proof.
  unfold make_random_move, random_candidates. case_decide; [| done].
  intros Hl. apply list_elem_of_lookup_2, elem_of_elements in Hl.
  rewrite elem_of_difference, elem_of_grid, not_elem_of_union in Hl. tauto.
Qed.

(** C1. On a fresh 2 × 2 board the candidates of [make_random_move] are
    built from [range(height - 1)] and [range(width - 1)]: the only cell it
    can return is (0, 0), so (1, 1) and the rest of the last row and column
    are never drawn. *)
Theorem make_random_move_2x2_truncated (randint : nat) :
  random_candidates (__init__ 2 2) = {[ (0, 0)%Z ]}
  ∧ (make_random_move (__init__ 2 2) randint = Some (0, 0)%Z
     ∨ make_random_move (__init__ 2 2) randint = None).
Proof.
  assert (Hc : random_candidates (__init__ 2 2) = {[ (0, 0)%Z ]}) by (by vm_compute).
  split; [done |]. unfold make_random_move. rewrite Hc.
  rewrite size_singleton, elements_singleton.
  destruct randint; [by left | by right].
Qed.

(** ** The pool after an update *)

(** C2. Two truthful runs on a 2 × 3 board that end with a sentence without
    cells in the pool.
    (1) Mines at (1,1) and (1,2); observations (0,0) = 1, (0,1) = 2 and
    (0,2) = 2.  In the third call the conclusions empty all four sentences
    of the pool before the first clean-up.  That loop removes from the list
    it walks, so it leaves two of them (references 2 and 3), and the second
    clean-up leaves the last one: [add_knowledge] returns with the pool
    [{} = 0].
    (2) A mine at (0,0); observations (1,0) = 1 and (1,1) = 1.  The second
    call derives {(0,2),(1,2)} = 0 by the subset rule, appends it, runs the
    clean-up and only then draws the conclusions that empty it: the pool
    ends with this sentence, now {} = 0, as its third item. *)
Theorem empty_sentence_left_in_pool :
  (∃ ai0 ai1 ai,
     replay (__init__ 2 3) [((0, 0), 1); ((0, 1), 2)]%Z = Ok ai0
     ∧ Forall (λ r, Sentence.cells (deref (store ai0) r) ≠ ∅) (knowledge ai0)
     ∧ ingest ai0 (0, 2)%Z 2 = Ok ai1
     ∧ knowledge ai1 = [2; 3]
     ∧ deref (store ai1) 2 = Sentence.mk ∅ 0
     ∧ deref (store ai1) 3 = Sentence.mk ∅ 0
     ∧ add_knowledge ai0 (0, 2)%Z 2 = Ok ai
     ∧ knowledge ai = [3]
     ∧ deref (store ai) 3 = Sentence.mk ∅ 0)
  ∧ (∃ ai,
       replay (__init__ 2 3) [((1, 0), 1); ((1, 1), 1)]%Z = Ok ai
       ∧ knowledge ai = [0; 1; 2]
       ∧ safes ai = {[ (1, 0); (1, 1); (0, 2); (1, 2) ]}%Z
       ∧ deref (store ai) 2 = Sentence.mk ∅ 0).
Proof.
  split.
  - do 3 eexists. split; [vm_compute; reflexivity |].
    split; [apply (bool_decide_unpack _); by vm_compute |].
    split; [vm_compute; reflexivity |]. do 3 (split; [by vm_compute |]).
    split; [vm_compute; reflexivity |]. by vm_compute.
  - eexists. split; [vm_compute; reflexivity |]. by vm_compute.
Qed.

(** ** Results *)

Lemma bind_Ok {A B} (m : result A) (f : A → result B) (b : B) :
  m ≫= f = Ok b ↔ ∃ a, m = Ok a ∧ f a = Ok b.
Proof.
  destruct m as [a | e]; simpl; split.
  - eauto.
  - by intros (? & [= <-] & ?).
  - done.
  - by intros (? & ? & ?).
Qed.

(** ** Copies, removals and the clean-up loop *)

Lemma foldl_add_elements (l : list cell) (acc : gset cell) :
  foldl (λ bin x, bin ∪ {[x]}) acc l = acc ∪ list_to_set l.
Proof.
  revert acc. induction l as [| x l IH]; intros acc; simpl.
  - set_solver.
  - rewrite IH. set_solver.
Qed.

Lemma copy_set_id (tiles : gset cell) : copy_set tiles = tiles.
Proof.
  unfold copy_set. rewrite foldl_add_elements, list_to_set_elements_L. set_solver.
Qed.

Lemma for_each_set_remove (l : list cell) (s : gset cell) :
  NoDup l → (∀ x, x ∈ l → x ∈ s) →
  for_each set_remove s l = Ok (s ∖ list_to_set l).
Proof.
  revert s. induction l as [| x l IH]; intros s Hnd Hin; cbn [for_each].
  - f_equal. set_solver.
  - apply NoDup_cons in Hnd as [Hx Hnd].
    assert (set_remove s x = Ok (s ∖ {[x]})) as ->.
    { unfold set_remove. apply decide_True, Hin. constructor. }
    cbn [mbind result_bind].
    rewrite IH; [f_equal; set_solver | done |].
    intros y Hy. apply elem_of_difference. split.
    + apply Hin. by constructor.
    + rewrite elem_of_singleton. by intros ->.
Qed.

Lemma list_remove_Ok (h : list Sentence.t) (r : ref) (l : list ref) :
  r ∈ l → ∃ l', list_remove h (deref h r) l = Ok l'.
Proof.
  induction l as [| r' l IH]; intros Hr; [by apply elem_of_nil in Hr |]. simpl.
  destruct (Sentence.__eq__ (deref h r') (deref h r)) eqn:He; [eauto |].
  apply elem_of_cons in Hr as [-> | Hr].
  - by rewrite (proj2 (eq_spec _ _)) in He.
  - destruct (IH Hr) as [l' ->]. simpl. eauto.
Qed.

(** [list.remove] drops exactly one item, equal to the argument. *)
Lemma list_remove_inv (h : list Sentence.t) (x : Sentence.t) (l l' : list ref) :
  list_remove h x l = Ok l' →
  ∃ l1 r l2, l = l1 ++ r :: l2 ∧ l' = l1 ++ l2 ∧ deref h r = x.
Proof.
  revert l'. induction l as [| r l IH]; intros l'; simpl; [done |].
  destruct (Sentence.__eq__ (deref h r) x) eqn:He.
  - intros [= <-]. exists [], r, l. by apply eq_spec in He.
  - rewrite bind_Ok. intros (l'' & Hrec & [= <-]).
    destruct (IH _ Hrec) as (l1 & r' & l2 & -> & -> & Hx).
    by exists (r :: l1), r', l2.
Qed.

Lemma remove_empty_from_Ok (h : list Sentence.t) (fuel i : nat) (l : list ref) :
  ∃ l', remove_empty_from h fuel i l = Ok l'.
Proof.
  revert i l. induction fuel as [| fuel IH]; intros i l; simpl; [eauto |].
  destruct (l !! i) as [r |] eqn:Hi; [| eauto].
  case_decide; [| done].
  destruct (list_remove_Ok h r l) as [l' ->]; [by eapply list_elem_of_lookup_2 |].
  simpl. done.
Qed.

(** The clean-up loop only drops references, and only references to
    sentences without cells. *)
Lemma remove_empty_from_inv (h : list Sentence.t) (fuel i : nat) (l l' : list ref) :
  remove_empty_from h fuel i l = Ok l' →
  l' ⊆ l ∧ ∀ r, r ∈ l → Sentence.cells (deref h r) ≠ ∅ → r ∈ l'.
Proof.
  revert i l. induction fuel as [| fuel IH]; intros i l; simpl.
  { intros [= <-]. done. }
  destruct (l !! i) as [r |] eqn:Hi; [| intros [= <-]; done].
  case_decide as Hsz; [| apply IH].
  rewrite bind_Ok. intros (l1 & Hrm & Hrec).
  apply list_remove_inv in Hrm as (la & r' & lb & -> & -> & Hr').
  apply IH in Hrec as [Hsub Hkeep]. split.
  - intros x Hx. apply Hsub in Hx. set_solver.
  - intros x Hx Hne. apply Hkeep; [| done].
    apply elem_of_app in Hx as [Hx | Hx]; [set_solver |].
    apply elem_of_cons in Hx as [-> | Hx]; [| set_solver].
    apply size_empty_iff in Hsz. rewrite Hr' in Hne. set_solver.
Qed.

(** The number of iterations never exceeds the length of the list: more
    fuel than [length l - i] changes nothing. *)
Lemma remove_empty_from_fuel (h : list Sentence.t) (fuel fuel' i : nat) (l : list ref) :
  length l ≤ i + fuel → fuel ≤ fuel' →
  remove_empty_from h fuel' i l = remove_empty_from h fuel i l.
Proof.
  revert fuel' i l. induction fuel as [| fuel IH]; intros fuel' i l Hlen Hle.
  - destruct fuel'; simpl; [done |].
    rewrite lookup_ge_None_2 by lia. done.
  - destruct fuel' as [| fuel']; [lia |]. simpl.
    destruct (l !! i) as [r |] eqn:Hi; [| done].
    case_decide.
    + destruct (list_remove h (deref h r) l) as [l1 | e] eqn:Hrm; [| done]. simpl.
      apply list_remove_inv in Hrm as (la & r' & lb & -> & -> & _).
      apply IH; [| lia]. rewrite length_app in *. simpl in Hlen. lia.
    + apply IH; lia.
Qed.

Lemma remove_empty_enough_fuel (h : list Sentence.t) (l : list ref) (n : nat) :
  remove_empty_from h (length l + n) 0 l = remove_empty h l.
Proof. apply remove_empty_from_fuel; lia. Qed.

(** ** The new sentence *)

Lemma elem_of_around (x c : cell) : x ∈ around c ↔ chebyshev x c = 1%Z.
Proof.
  destruct x as [a b], c as [i j]. unfold around, chebyshev; simpl.
  rewrite !elem_of_union, !elem_of_singleton. split.
  - intros H. destruct_or!; injection H as -> ->; lia.
  - intros H.
    assert (Ha : a = (i - 1)%Z ∨ a = i ∨ a = (i + 1)%Z) by lia.
    assert (Hb : b = (j - 1)%Z ∨ b = j ∨ b = (j + 1)%Z) by lia.
    destruct Ha as [-> | [-> | ->]], Hb as [-> | [-> | ->]];
      try lia; tauto.
Qed.

Lemma elem_of_in_grid (all_moves L : gset cell) (x : cell) :
  x ∈ in_grid all_moves L ↔ x ∈ L ∧ x ∈ all_moves.
Proof.
  unfold in_grid. rewrite <- (elem_of_elements L).
  assert (Hgen : ∀ (l : list cell) (acc : gset cell),
    x ∈ foldl (λ nb c, if decide (c ∈ all_moves) then nb ∪ {[c]} else nb) acc l
    ↔ x ∈ acc ∨ (x ∈ l ∧ x ∈ all_moves)).
  { induction l as [| y l IH]; intros acc; simpl.
    - set_solver.
    - rewrite IH, elem_of_cons. case_decide; set_solver. }
  rewrite Hgen. set_solver.
Qed.

(** The in-bounds neighbours of a cell, as [add_knowledge] computes them. *)
Lemma elem_of_neighbors (ai : MinesweeperAI) (c x : cell) :
  x ∈ in_grid (grid (height ai) (width ai)) (around c)
  ↔ in_bounds ai x ∧ chebyshev x c = 1%Z.
Proof.
  rewrite elem_of_in_grid, elem_of_around. destruct x as [a b].
  rewrite elem_of_grid. unfold in_bounds; simpl. tauto.
Qed.

Lemma eliminate_spec (ai : MinesweeperAI) (neighbors : gset cell) (count : Z) :
  eliminate ai neighbors count
  = (neighbors ∩ (mines ai ∪ safes ai ∪ moves_made ai),
     (count - Z.of_nat (size (neighbors ∩ mines ai)))%Z).
Proof.
  unfold eliminate.
  rewrite <- (list_to_set_elements_L neighbors) at 2 3.
  pose proof (NoDup_elements neighbors) as Hnd. revert Hnd.
  generalize (elements neighbors). intros l Hnd.
  replace (list_to_set l ∩ (mines ai ∪ safes ai ∪ moves_made ai))
    with (∅ ∪ list_to_set l ∩ (mines ai ∪ safes ai ∪ moves_made ai) : gset cell)
    by set_solver.
  generalize (∅ : gset cell) as acc. revert count.
  induction Hnd as [| x l Hx Hnd IH]; intros count acc; simpl.
  - f_equal; [set_solver |].
    replace ((∅ : gset cell) ∩ mines ai) with (∅ : gset cell) by set_solver.
    rewrite size_empty. lia.
  - assert (Hsz : ∀ b : bool,
      (if b then x ∈ mines ai else x ∉ mines ai) →
      Z.of_nat (size (({[x]} ∪ list_to_set l) ∩ mines ai))
      = ((if b then 1 else 0) + Z.of_nat (size ((list_to_set l : gset cell) ∩ mines ai)))%Z).
    { intros b Hb.
      replace (({[x]} ∪ list_to_set l) ∩ mines ai)
        with ((if b then {[x]} else ∅) ∪ (list_to_set l : gset cell) ∩ mines ai)
        by (destruct b; set_solver).
      rewrite size_union by (destruct b; set_solver).
      destruct b; [rewrite size_singleton | rewrite size_empty]; lia. }
    destruct (decide (x ∈ mines ai)) as [Hm | Hm]; rewrite IH.
    + rewrite (Hsz true) by done.
      f_equal; [repeat case_decide; set_solver | lia ..].
    + rewrite (Hsz false) by done.
      f_equal; [repeat case_decide; set_solver | lia ..].
Qed.

Lemma length_update_all m c k h : length (update_all m c k h) = length h.
Proof.
  unfold update_all. revert h. induction k as [| r k IH]; intros h; simpl; [done |].
  by rewrite IH, length_alter.
Qed.

Lemma around_irrefl (c : cell) : c ∉ around c.
Proof. rewrite elem_of_around. unfold chebyshev. lia. Qed.

(** Lines 197-227 never raise; the state they leave and the sentence they
    append are the following. *)
Lemma observe_spec (ai : MinesweeperAI) (c : cell) (count : Z) :
  let neighbors := in_grid (grid (height ai) (width ai)) (around c) in
  observe ai c count
  = Ok (mkAI (height ai) (width ai) (moves_made ai ∪ {[c]}) (mines ai)
          (safes ai ∪ {[c]}) (knowledge ai ++ [length (store ai)])
          (update_all Sentence.mark_safe c (knowledge ai) (store ai)
           ++ [Sentence.mk (neighbors ∖ (moves_made ai ∪ safes ai ∪ mines ai))
                 (count - Z.of_nat (size (neighbors ∩ mines ai)))]),
        length (store ai)).
Proof.
  intros neighbors. unfold observe.
  cbn [mark_safe with_moves_made with_safes with_store with_knowledge
       height width moves_made mines safes knowledge store].
  fold neighbors. rewrite eliminate_spec.
  cbn [mark_safe with_moves_made with_safes with_store with_knowledge
       height width moves_made mines safes knowledge store].
  set (elim := neighbors ∩ (mines ai ∪ (safes ai ∪ {[c]}) ∪ (moves_made ai ∪ {[c]}))).
  assert (Hc : c ∉ neighbors).
  { unfold neighbors. rewrite elem_of_in_grid. intros [? _]. by eapply around_irrefl. }
  assert (Hcells : neighbors ∖ elim = neighbors ∖ (moves_made ai ∪ safes ai ∪ mines ai))
    by set_solver.
  assert (Hrm : (if decide (size elim ≠ 0)
                 then for_each set_remove neighbors (elements elim)
                 else Ok neighbors) = Ok (neighbors ∖ elim)).
  { case_decide as Hsz.
    - rewrite for_each_set_remove.
      + by rewrite list_to_set_elements_L.
      + apply NoDup_elements.
      + intros x Hx. apply elem_of_elements in Hx. set_solver.
    - assert (elim = ∅) as -> by (apply leibniz_equiv, size_empty_iff; lia).
      f_equal. set_solver. }
  rewrite Hrm. cbn [mbind result_bind]. rewrite Hcells, length_update_all. done.
Qed.

(** ** Conclusions of one sentence *)

(** Whatever the aliasing between the tile sets and the sentence, one round
    of conclusions marks all cells of the sentence safe (count 0), or all of
    them mines (count equal to the number of cells), or does nothing. *)
Lemma conclude_cases (ai : MinesweeperAI) (r : ref) :
  let s := deref (store ai) r in
  (Sentence.count s = 0%Z
   ∧ conclude ai r = foldl mark_safe ai (elements (Sentence.cells s)))
  ∨ (Sentence.count s ≠ 0%Z
     ∧ Z.of_nat (size (Sentence.cells s)) = Sentence.count s
     ∧ conclude ai r = foldl mark_mine ai (elements (Sentence.cells s)))
  ∨ (Sentence.count s ≠ 0%Z
     ∧ Z.of_nat (size (Sentence.cells s)) ≠ Sentence.count s
     ∧ conclude ai r = ai).
Proof.
  intros s. unfold conclude, known_safes_of, known_mines_of. fold s.
  destruct (decide (Sentence.count s = 0%Z)) as [H0 | H0];
    destruct (decide (Z.of_nat (size (Sentence.cells s)) = Sentence.count s)) as [Hm | Hm];
    cbn [contents]; fold s; rewrite ?copy_set_id, ?size_empty;
    rewrite ?(decide_False (P := 0 ≠ 0)) by done.
  - repeat (rewrite (decide_False (P := size (Sentence.cells s) ≠ 0)) by lia; fold s).
    left. split; [done |].
    assert (Sentence.cells s = ∅) as -> by (apply leibniz_equiv, size_empty_iff; lia).
    by rewrite elements_empty.
  - rewrite (decide_True (P := size (Sentence.cells s) ≠ 0)) by lia. by left.
  - rewrite (decide_True (P := size (Sentence.cells s) ≠ 0)) by lia. right; by left.
  - by right; right.
Qed.

Lemma conclude_new_cases (ai : MinesweeperAI) (r : ref) :
  let s := deref (store ai) r in
  (Sentence.count s = 0%Z
   ∧ conclude_new ai r = foldl mark_safe ai (elements (Sentence.cells s)))
  ∨ (Sentence.count s ≠ 0%Z
     ∧ Z.of_nat (size (Sentence.cells s)) = Sentence.count s
     ∧ conclude_new ai r = foldl mark_mine ai (elements (Sentence.cells s)))
  ∨ (Sentence.count s ≠ 0%Z
     ∧ Z.of_nat (size (Sentence.cells s)) ≠ Sentence.count s
     ∧ conclude_new ai r = ai).
Proof.
  intros s. unfold conclude_new, known_safes_of, known_mines_of. fold s.
  destruct (decide (Sentence.count s = 0%Z)) as [H0 | H0];
    destruct (decide (Z.of_nat (size (Sentence.cells s)) = Sentence.count s)) as [Hm | Hm];
    cbn [contents]; fold s; rewrite ?copy_set_id, ?size_empty;
    rewrite ?(decide_False (P := 0 ≠ 0)) by done.
  - repeat (rewrite (decide_False (P := size (Sentence.cells s) ≠ 0)) by lia; fold s).
    left. split; [done |].
    assert (Sentence.cells s = ∅) as -> by (apply leibniz_equiv, size_empty_iff; lia).
    by rewrite elements_empty.
  - rewrite (decide_True (P := size (Sentence.cells s) ≠ 0)) by lia. by left.
  - rewrite (decide_True (P := size (Sentence.cells s) ≠ 0)) by lia. right; by left.
  - by right; right.
Qed.

(** ** [add_knowledge] returns *)

Lemma remove_empty_Ok (h : list Sentence.t) (l : list ref) :
  ∃ l', remove_empty h l = Ok l'.
Proof. apply remove_empty_from_Ok. Qed.

Lemma ingest_Ok (ai : MinesweeperAI) (c : cell) (count : Z) :
  ∃ ai', ingest ai c count = Ok ai'.
Proof.
  unfold ingest. rewrite observe_spec. cbn [mbind result_bind].
  match goal with |- context [remove_empty ?h ?l] =>
    destruct (remove_empty_Ok h l) as [k ->] end.
  cbn [mbind result_bind]. eauto.
Qed.

Lemma digest_Ok (ai : MinesweeperAI) (additional_knowledge : list ref) :
  ∃ ai', digest ai additional_knowledge = Ok ai'.
Proof.
  unfold digest.
  match goal with |- context [remove_empty ?h ?l] =>
    destruct (remove_empty_Ok h l) as [k ->] end.
  cbn [mbind result_bind].
  match goal with |- context [remove_empty ?h ?l] =>
    destruct (remove_empty_Ok h l) as [k' ->] end.
  cbn [mbind result_bind]. eauto.
Qed.

(** The phases of [add_knowledge], read off a successful call. *)
Lemma ingest_inv ai c count ai' :
  ingest ai c count = Ok ai' →
  ∃ ai0 new_sentence k,
    observe ai c count = Ok (ai0, new_sentence)
    ∧ remove_empty
        (store (foldl conclude (conclude_new ai0 new_sentence)
                  (knowledge (conclude_new ai0 new_sentence))))
        (knowledge (foldl conclude (conclude_new ai0 new_sentence)
                      (knowledge (conclude_new ai0 new_sentence)))) = Ok k
    ∧ ai' = with_knowledge
              (foldl conclude (conclude_new ai0 new_sentence)
                 (knowledge (conclude_new ai0 new_sentence))) k.
Proof.
  unfold ingest. intros ([ai0 new_sentence] & Hobs & H)%bind_Ok.
  apply bind_Ok in H as (k & Hk & [= <-]). by exists ai0, new_sentence, k.
Qed.

Lemma digest_inv ai additional_knowledge ai' :
  digest ai additional_knowledge = Ok ai' →
  ∃ k additional,
    remove_empty (store ai) (add_new (store ai) (knowledge ai) additional_knowledge) = Ok k
    ∧ remove_empty (store ai) additional_knowledge = Ok additional
    ∧ ai' = foldl conclude (with_knowledge ai k) additional.
Proof.
  unfold digest. intros (k & Hk & H)%bind_Ok.
  apply bind_Ok in H as (additional & Hadd & [= <-]). by exists k, additional.
Qed.

Lemma add_knowledge_inv ai c count ai' :
  add_knowledge ai c count = Ok ai' →
  ∃ ai1, ingest ai c count = Ok ai1
         ∧ digest (with_store ai1 (resolve (store ai1) (knowledge ai1)).1)
             (resolve (store ai1) (knowledge ai1)).2 = Ok ai'.
Proof.
  unfold add_knowledge. intros (ai1 & Hing & H)%bind_Ok. exists ai1. split; [done |].
  by destruct (resolve (store ai1) (knowledge ai1)).
Qed.

Lemma add_knowledge_Ok (ai : MinesweeperAI) (c : cell) (count : Z) :
  ∃ ai', add_knowledge ai c count = Ok ai'.
Proof.
  unfold add_knowledge. destruct (ingest_Ok ai c count) as [ai1 ->].
  cbn [mbind result_bind].
  destruct (resolve (store ai1) (knowledge ai1)) as [h additional_knowledge].
  apply digest_Ok.
Qed.



(** ** Monotonicity *)

Lemma grows_refl ai : grows ai ai.
Proof. by repeat split. Qed.

Lemma grows_trans ai1 ai2 ai3 : grows ai1 ai2 → grows ai2 ai3 → grows ai1 ai3.
Proof.
  unfold grows. intros (-> & -> & ? & ?) (-> & -> & ? & ?).
  repeat split; set_solver.
Qed.

Lemma grows_mark_safe ai c : grows ai (mark_safe ai c).
Proof. unfold grows; simpl. repeat split; set_solver. Qed.

Lemma grows_mark_mine ai c : grows ai (mark_mine ai c).
Proof. unfold grows; simpl. repeat split; set_solver. Qed.

Lemma grows_foldl {B} (f : MinesweeperAI → B → MinesweeperAI) (l : list B) ai :
  (∀ a x, grows a (f a x)) → grows ai (foldl f ai l).
Proof.
  intros Hf. revert ai. induction l as [| x l IH]; intros ai; simpl.
  - apply grows_refl.
  - eapply grows_trans; [apply Hf | apply IH].
Qed.

Lemma grows_conclude ai r : grows ai (conclude ai r).
Proof.
  destruct (conclude_cases ai r) as [[_ ->] | [(_ & _ & ->) | (_ & _ & ->)]].
  - apply grows_foldl, grows_mark_safe.
  - apply grows_foldl, grows_mark_mine.
  - apply grows_refl.
Qed.

Lemma grows_conclude_new ai r : grows ai (conclude_new ai r).
Proof.
  destruct (conclude_new_cases ai r) as [[_ ->] | [(_ & _ & ->) | (_ & _ & ->)]].
  - apply grows_foldl, grows_mark_safe.
  - apply grows_foldl, grows_mark_mine.
  - apply grows_refl.
Qed.

Lemma grows_ingest ai c count ai' : ingest ai c count = Ok ai' → grows ai ai'.
Proof.
  unfold ingest. rewrite observe_spec. cbn [mbind result_bind].
  rewrite bind_Ok. intros (k & _ & [= <-]).
  match goal with |- grows _ (with_knowledge (foldl conclude (conclude_new ?a ?r) ?l) _) =>
    pose proof (grows_conclude_new a r) as H1;
    pose proof (grows_foldl conclude l (conclude_new a r) grows_conclude) as H2
  end.
  eapply grows_trans; [| eapply grows_trans; [apply H1 | apply H2]].
  unfold grows; simpl. repeat split; set_solver.
Qed.

Lemma grows_digest ai additional_knowledge ai' :
  digest ai additional_knowledge = Ok ai' → grows ai ai'.
Proof.
  unfold digest. rewrite bind_Ok. intros (k & _ & H). revert H.
  rewrite bind_Ok. intros (k' & _ & [= <-]).
  match goal with |- grows _ (foldl conclude ?a ?l) =>
    pose proof (grows_foldl conclude l a grows_conclude) as H end.
  eapply grows_trans; [| apply H]. by repeat split.
Qed.

Lemma grows_add_knowledge ai c count ai' :
  add_knowledge ai c count = Ok ai' → grows ai ai'.
Proof.
  unfold add_knowledge. rewrite bind_Ok. intros (ai1 & H1 & H2).
  destruct (resolve (store ai1) (knowledge ai1)) as [h additional_knowledge].
  apply grows_ingest in H1. apply grows_digest in H2.
  eapply grows_trans; [apply H1 | apply H2].
Qed.

(** C9. Over any sequence of [add_knowledge], [make_safe_move] and
    [make_random_move] calls, started in any state, the calls all return
    and the sets [safes] and [mines] only grow. *)
Theorem safes_mines_monotone (ops : list call) (ai : MinesweeperAI) :
  ∃ ai', session ai ops = Ok ai' ∧ safes ai ⊆ safes ai' ∧ mines ai ⊆ mines ai'.
Proof.
  revert ai. induction ops as [| op ops IH]; intros ai; unfold session; simpl.
  - by exists ai.
  - assert (∃ ai1, perform ai op = Ok ai1 ∧ grows ai ai1) as (ai1 & -> & Hg).
    { destruct op as [c count | | randint]; simpl.
      - destruct (add_knowledge_Ok ai c count) as [ai1 H1].
        exists ai1. split; [done |]. by eapply grows_add_knowledge.
      - exists ai. split; [done | apply grows_refl].
      - exists ai. split; [done | apply grows_refl]. }
    simpl. destruct (IH ai1) as (ai' & Hs & Hg').
    exists ai'. split; [done |]. unfold grows in Hg. set_solver.
Qed.

(** ** Soundness against a mine layout *)

Section soundness.
Variable M : gset cell.

Lemma sat_default : sat M (inhabitant : Sentence.t).
Proof. unfold sat; simpl. by rewrite intersection_empty_l_L, size_empty. Qed.

Lemma sat_deref (h : list Sentence.t) (r : ref) : Forall (sat M) h → sat M (deref h r).
Proof.
  intros Hh. unfold deref. rewrite list_lookup_total_alt.
  destruct (h !! r) as [s |] eqn:Hr; simpl.
  - by eapply Forall_lookup_1.
  - apply sat_default.
Qed.

Lemma sat_mark_safe (s : Sentence.t) (c : cell) :
  c ∉ M → sat M s → sat M (Sentence.mark_safe s c).
Proof.
  unfold sat. intros Hc Hs. rewrite mark_safe_cells, mark_safe_count, <- Hs.
  do 2 f_equal. set_solver.
Qed.

Lemma sat_mark_mine (s : Sentence.t) (c : cell) :
  c ∈ M → sat M s → sat M (Sentence.mark_mine s c).
Proof.
  unfold sat, Sentence.mark_mine. intros Hc Hs. case_decide as Hin; [| done].
  cbn [Sentence.cells Sentence.count]. rewrite <- Hs.
  replace ((Sentence.cells s ∖ {[c]}) ∩ M) with ((Sentence.cells s ∩ M) ∖ {[c]})
    by set_solver.
  assert (Hsub : {[c]} ⊆ Sentence.cells s ∩ M) by set_solver.
  rewrite size_difference by done. apply subseteq_size in Hsub.
  rewrite size_singleton in *. lia.
Qed.

Lemma sat_difference (s1 s2 : Sentence.t) :
  Sentence.cells s2 ⊆ Sentence.cells s1 → sat M s1 → sat M s2 →
  sat M (Sentence.mk (Sentence.cells s1 ∖ Sentence.cells s2)
           (Sentence.count s1 - Sentence.count s2)).
Proof.
  unfold sat. intros Hsub H1 H2. cbn [Sentence.cells Sentence.count].
  rewrite <- H1, <- H2.
  replace ((Sentence.cells s1 ∖ Sentence.cells s2) ∩ M)
    with ((Sentence.cells s1 ∩ M) ∖ (Sentence.cells s2 ∩ M)) by set_solver.
  assert (Hsub' : Sentence.cells s2 ∩ M ⊆ Sentence.cells s1 ∩ M) by set_solver.
  rewrite size_difference by done. apply subseteq_size in Hsub'. lia.
Qed.

(** A true sentence with count 0 has no mine; a true sentence whose count
    is its number of cells has only mines. *)
Lemma sat_known_safes (s : Sentence.t) :
  sat M s → Sentence.count s = 0%Z → Forall (λ c, c ∉ M) (elements (Sentence.cells s)).
Proof.
  unfold sat. intros Hs H0. rewrite H0 in Hs.
  assert (He : Sentence.cells s ∩ M ≡ ∅) by (apply size_empty_iff; lia).
  apply Forall_forall. intros c Hc%elem_of_elements. set_solver.
Qed.

Lemma sat_known_mines (s : Sentence.t) :
  sat M s → Z.of_nat (size (Sentence.cells s)) = Sentence.count s →
  Forall (λ c, c ∈ M) (elements (Sentence.cells s)).
Proof.
  unfold sat. intros Hs Hm.
  assert (He : Sentence.cells s ∩ M = Sentence.cells s).
  { apply set_subseteq_size_eq; [set_solver | lia]. }
  apply Forall_forall. intros c Hc%elem_of_elements. set_solver.
Qed.

Lemma Forall_update_all (P : Sentence.t → Prop) m c k h :
  (∀ s, P s → P (m s c)) → Forall P h → Forall P (update_all m c k h).
Proof.
  intros Hm. unfold update_all. revert h.
  induction k as [| r k IH]; intros h Hh; simpl; [done |].
  apply IH. apply Forall_alter; [done |]. intros s _. apply Hm.
Qed.

Lemma consistent_mark_safe ai c :
  c ∉ M → consistent M ai → consistent M (mark_safe ai c).
Proof.
  intros Hc (Hm & Hs & Hp & Hh). unfold consistent; simpl.
  split_and!; [done | set_solver | done |].
  apply Forall_update_all; [| done]. intros s. by apply sat_mark_safe.
Qed.

Lemma consistent_mark_mine ai c :
  c ∈ M → consistent M ai → consistent M (mark_mine ai c).
Proof.
  intros Hc (Hm & Hs & Hp & Hh). unfold consistent; simpl.
  split_and!; [set_solver | done | done |].
  apply Forall_update_all; [| done]. intros s. by apply sat_mark_mine.
Qed.

Lemma foldl_preserves {A B} (f : A → B → A) (P : A → Prop) (Q : B → Prop) l a :
  (∀ a x, Q x → P a → P (f a x)) → Forall Q l → P a → P (foldl f a l).
Proof.
  intros Hf Hl. revert a. induction Hl as [| x l Hx Hl IH]; intros a Ha; simpl.
  - done.
  - apply IH. by apply Hf.
Qed.

Lemma consistent_conclude ai r : consistent M ai → consistent M (conclude ai r).
Proof.
  intros Hai. pose proof (sat_deref (store ai) r (proj2 (proj2 (proj2 Hai)))) as Hs.
  destruct (conclude_cases ai r) as [[H0 ->] | [(_ & Hm & ->) | (_ & _ & ->)]].
  - eapply foldl_preserves; [apply consistent_mark_safe | | done].
    by apply sat_known_safes.
  - eapply foldl_preserves; [apply consistent_mark_mine | | done].
    by apply sat_known_mines.
  - done.
Qed.

Lemma consistent_conclude_new ai r : consistent M ai → consistent M (conclude_new ai r).
Proof.
  intros Hai. pose proof (sat_deref (store ai) r (proj2 (proj2 (proj2 Hai)))) as Hs.
  destruct (conclude_new_cases ai r) as [[H0 ->] | [(_ & Hm & ->) | (_ & _ & ->)]].
  - eapply foldl_preserves; [apply consistent_mark_safe | | done].
    by apply sat_known_safes.
  - eapply foldl_preserves; [apply consistent_mark_mine | | done].
    by apply sat_known_mines.
  - done.
Qed.

Lemma consistent_foldl_conclude ai l :
  consistent M ai → consistent M (foldl conclude ai l).
Proof.
  apply (foldl_preserves conclude (consistent M) (λ _, True)).
  - intros a x _. apply consistent_conclude.
  - by apply Forall_forall.
Qed.

Lemma consistent_with_knowledge ai k :
  consistent M ai → consistent M (with_knowledge ai k).
Proof. done. Qed.

Lemma subset_rule_sat r1 r2 acc :
  Forall (sat M) acc.1 → Forall (sat M) (subset_rule r1 r2 acc).1.
Proof.
  destruct acc as [h add]. unfold subset_rule. intros Hh.
  destruct (negb _); [| done]. case_decide; [| done]. simpl.
  apply Forall_app. split; [done |]. apply Forall_singleton.
  apply sat_difference; [done | by apply sat_deref ..].
Qed.

Lemma resolve_sat (h : list Sentence.t) (k : list ref) :
  Forall (sat M) h → Forall (sat M) (resolve h k).1.
Proof.
  intros Hh. unfold resolve.
  apply (foldl_preserves _ (λ acc, Forall (sat M) acc.1) (λ _, True));
    [| by apply Forall_forall | done].
  intros acc r1 _ Hacc.
  apply (foldl_preserves _ (λ acc, Forall (sat M) acc.1) (λ _, True));
    [| by apply Forall_forall | done].
  intros acc' r2 _. apply subset_rule_sat.
Qed.

Lemma consistent_observe ai c count ai' new_sentence :
  consistent M ai → truthful M (height ai) (width ai) (c, count) →
  observe ai c count = Ok (ai', new_sentence) → consistent M ai'.
Proof.
  intros (Hm & Hs & Hp & Hh) [Hc Hcount]. rewrite observe_spec. intros [= <- _].
  simpl in Hc, Hcount. unfold neighbors in Hcount.
  unfold consistent; cbn [mines safes moves_made store].
  split_and!; [done | set_solver | set_solver |].
  apply Forall_app. split.
  - apply Forall_update_all; [| done]. intros s. by apply sat_mark_safe.
  - apply Forall_singleton. unfold sat. cbn [Sentence.cells Sentence.count].
    rewrite Hcount.
    set (nb := in_grid (grid (height ai) (width ai)) (around c)).
    replace ((nb ∖ (moves_made ai ∪ safes ai ∪ mines ai)) ∩ M)
      with ((nb ∩ M) ∖ (nb ∩ mines ai)) by set_solver.
    assert (Hsub : nb ∩ mines ai ⊆ nb ∩ M) by set_solver.
    rewrite size_difference by done. apply subseteq_size in Hsub. lia.
Qed.

Lemma consistent_ingest ai c count ai' :
  consistent M ai → truthful M (height ai) (width ai) (c, count) →
  ingest ai c count = Ok ai' → consistent M ai'.
Proof.
  intros Hai Ht (ai0 & new_sentence & k & Hobs & _ & ->)%ingest_inv.
  eapply consistent_observe in Hobs; [| done ..].
  by apply consistent_with_knowledge, consistent_foldl_conclude,
    consistent_conclude_new.
Qed.

Lemma consistent_add_knowledge ai c count ai' :
  consistent M ai → truthful M (height ai) (width ai) (c, count) →
  add_knowledge ai c count = Ok ai' → consistent M ai'.
Proof.
  intros Hai Ht (ai1 & Hing & Hdig)%add_knowledge_inv.
  eapply consistent_ingest in Hing as (? & ? & ? & Hst); [| done ..].
  apply digest_inv in Hdig as (k1 & additional & _ & _ & ->).
  apply consistent_foldl_conclude.
  unfold consistent; simpl. split_and!; try done. by apply resolve_sat.
Qed.

Lemma consistent_disjoint ai : consistent M ai → safes ai ∩ mines ai = ∅.
Proof. intros (? & ? & _). set_solver. Qed.

End soundness.

Lemma consistent_init (M : gset cell) (h w : Z) : consistent M (__init__ h w).
Proof. unfold consistent, __init__; simpl. split_and!; [set_solver .. | constructor]. Qed.

Lemma consistent_replay (M : gset cell) (obs : list (cell * Z)) (ai : MinesweeperAI) :
  consistent M ai → Forall (truthful M (height ai) (width ai)) obs →
  ∃ ai', replay ai obs = Ok ai' ∧ consistent M ai'.
Proof.
  revert ai. induction obs as [| [c count] obs IH]; intros ai Hai Hobs.
  - by exists ai.
  - apply Forall_cons in Hobs as [Ho Hobs].
    destruct (add_knowledge_Ok ai c count) as [ai1 H1].
    pose proof (grows_add_knowledge _ _ _ _ H1) as (Hh & Hw & _).
    destruct (IH ai1) as (ai' & Hr & Hc).
    + by eapply consistent_add_knowledge.
    + by rewrite Hh, Hw.
    + exists ai'. split; [| done]. unfold replay in *. simpl. by rewrite H1.
Qed.

(** C5 (counterexample).  On a 1 × 2 board the observation (0,0) = 1 makes
    (0,1) a known mine; a second observation on (0,1) itself then marks it
    safe as well. *)
Lemma safes_mines_overlap :
  ∃ ai, replay (__init__ 1 2) [((0, 0), 1); ((0, 1), 0)]%Z = Ok ai
        ∧ safes ai ∩ mines ai = {[ (0, 1)%Z ]}.
Proof. eexists. split; [vm_compute; reflexivity | by vm_compute]. Qed.

(** C5 (as the program behaves).  When every observation is one the board
    can report for a fixed mine layout (the observed cell is not a mine and
    the count is the number of mines among its in-bounds neighbours), any
    sequence of [add_knowledge] calls on a fresh knowledge base returns and
    leaves [safes] and [mines] disjoint. *)
Theorem safes_mines_disjoint (M : gset cell) (h w : Z) (obs : list (cell * Z)) :
  Forall (truthful M h w) obs →
  ∃ ai, replay (__init__ h w) obs = Ok ai ∧ safes ai ∩ mines ai = ∅.
Proof.
  intros Hobs.
  destruct (consistent_replay M obs (__init__ h w)) as (ai & Hr & Hc).
  - apply consistent_init.
  - done.
  - exists ai. split; [done |]. by eapply consistent_disjoint.
Qed.

Lemma safes_mines_disjoint_witness :
  ∃ ai, replay (__init__ 2 3) [((1, 0), 1); ((1, 1), 1)]%Z = Ok ai
        ∧ safes ai ∩ mines ai = ∅.
Proof.
  apply (safes_mines_disjoint {[ (0, 0)%Z ]}).
  repeat constructor; simpl; first [by intros [= ?]%elem_of_singleton | by vm_compute].
Defined.

(** ** The subset rule *)

Lemma foldl_establishes {A B} (f : A → B → A) (I Q : A → Prop) (x : B) l a :
  (∀ a y, I a → I (f a y)) → (∀ a y, Q a → Q (f a y)) → (∀ a, I a → Q (f a x)) →
  x ∈ l → I a → Q (foldl f a l).
Proof.
  intros HI HQ Hx. revert a. induction l as [| y l IH]; intros a Hin Ha.
  - by apply elem_of_nil in Hin.
  - simpl. apply elem_of_cons in Hin as [<- | Hin].
    + apply (foldl_preserves f Q (λ _, True)); [by auto | by apply Forall_forall | by auto].
    + apply IH; by auto.
Qed.

Lemma deref_lt (h : list Sentence.t) (r : ref) :
  Sentence.count (deref h r) ≠ 0%Z → r < length h.
Proof.
  intros Hc. destruct (decide (r < length h)) as [| Hge]; [done |].
  unfold deref in Hc. rewrite list_lookup_total_alt, lookup_ge_None_2 in Hc by lia.
  done.
Qed.

Lemma deref_app (h t : list Sentence.t) (r : ref) :
  r < length h → deref (h ++ t) r = deref h r.
Proof. intros Hr. unfold deref. by apply lookup_total_app_l. Qed.

(** The subset rule only appends: to the store and to the derived list. *)
Lemma subset_rule_extends r1 r2 acc :
  ∃ t u, (subset_rule r1 r2 acc).1 = acc.1 ++ t ∧ (subset_rule r1 r2 acc).2 = acc.2 ++ u.
Proof.
  destruct acc as [h add]. unfold subset_rule.
  destruct (negb _); [| exists [], []; by rewrite !app_nil_r].
  case_decide; [| exists [], []; by rewrite !app_nil_r]. simpl. eauto.
Qed.

Section derive.
Variables (h : list Sentence.t) (k : list ref) (a b : ref) (x y z : cell).
Hypothesis Ha : deref h a = Sentence.mk {[x; y; z]} 2.
Hypothesis Hb : deref h b = Sentence.mk {[x; y]} 1.
Hypothesis Hzx : z ≠ x.
Hypothesis Hzy : z ≠ y.

Lemma subset_rule_keeps_extends r1 r2 acc :
  store_extends h acc → store_extends h (subset_rule r1 r2 acc).
Proof.
  unfold store_extends. intros [t Ht].
  destruct (subset_rule_extends r1 r2 acc) as (t' & _ & Ht' & _).
  exists (t ++ t'). by rewrite Ht', Ht, app_assoc.
Qed.

Lemma subset_rule_keeps_derived r1 r2 acc :
  derives z acc → derives z (subset_rule r1 r2 acc).
Proof.
  unfold derives. intros (d & Hd & Hl).
  destruct (subset_rule_extends r1 r2 acc) as (t & u & Ht & Hu).
  exists d. rewrite Ht, Hu. split; [set_solver | by apply lookup_app_l_Some].
Qed.

Lemma subset_rule_derives acc :
  store_extends h acc → derives z (subset_rule a b acc).
Proof.
  unfold store_extends, derives. intros [t Ht].
  destruct acc as [h' add]; simpl in Ht; subst h'.
  assert (Hla : a < length h) by (apply deref_lt; by rewrite Ha).
  assert (Hlb : b < length h) by (apply deref_lt; by rewrite Hb).
  unfold subset_rule. rewrite !deref_app, Ha, Hb by done.
  assert (Sentence.__eq__ (Sentence.mk {[x; y]} 1) (Sentence.mk {[x; y; z]} 2) = false) as ->.
  { apply not_true_iff_false. by intros [= ? ?]%eq_spec. }
  cbn [negb Sentence.cells Sentence.count].
  rewrite decide_True by set_solver.
  exists (length (h ++ t)). cbn [fst snd]. split; [set_solver |].
  rewrite list_lookup_middle by done. do 2 f_equal. set_solver.
Qed.

Lemma resolve_derives :
  a ∈ k → b ∈ k →
  ∃ d, d ∈ (resolve h k).2 ∧ (resolve h k).1 !! d = Some (Sentence.mk {[z]} 1).
Proof.
  intros Hak Hbk. unfold resolve.
  apply (foldl_establishes _ (store_extends h) (derives z) a);
    [| | | done | by exists []; rewrite app_nil_r].
  - intros acc r1 Hacc.
    apply (foldl_preserves _ (store_extends h) (λ _, True)); [| by apply Forall_forall | done].
    intros acc' r2 _. apply subset_rule_keeps_extends.
  - intros acc r1 Hacc.
    apply (foldl_preserves _ (derives z) (λ _, True)); [| by apply Forall_forall | done].
    intros acc' r2 _. apply subset_rule_keeps_derived.
  - intros acc Hacc.
    apply (foldl_establishes _ (store_extends h) (derives z) b); [| | | done | done].
    + intros acc' r2. apply subset_rule_keeps_extends.
    + intros acc' r2. apply subset_rule_keeps_derived.
    + apply subset_rule_derives.
Qed.

End derive.

Lemma deref_update_all_fixed m c k h (d : ref) :
  m (deref h d) c = deref h d → deref (update_all m c k h) d = deref h d.
Proof.
  unfold update_all, deref. revert h.
  induction k as [| r k IH]; intros h Hm; simpl; [done |].
  assert (Hd : alter (λ s, m s c) r h !!! d = h !!! d).
  { rewrite list_lookup_total_alter. case_decide as Hr; [| done].
    destruct Hr as [-> _]. done. }
  rewrite IH; [done |]. by rewrite Hd.
Qed.

Section conclusions_of_derived.
Variables (z : cell) (d : ref).

Lemma awaits_mark_safe ai c : awaits z d ai → awaits z d (mark_safe ai c).
Proof.
  unfold awaits, settled. destruct (decide (c = z)) as [-> | Hc]; [simpl; set_solver |].
  intros [Hd | H]; [left | right; simpl; set_solver].
  cbn [mark_safe store with_store with_safes knowledge].
  rewrite deref_update_all_fixed; [done |].
  rewrite Hd. unfold Sentence.mark_safe. apply decide_False. set_solver.
Qed.

Lemma awaits_mark_mine ai c : awaits z d ai → awaits z d (mark_mine ai c).
Proof.
  unfold awaits, settled. destruct (decide (c = z)) as [-> | Hc]; [simpl; set_solver |].
  intros [Hd | H]; [left | right; simpl; set_solver].
  cbn [mark_mine store with_store with_mines knowledge].
  rewrite deref_update_all_fixed; [done |].
  rewrite Hd. unfold Sentence.mark_mine. apply decide_False. set_solver.
Qed.

Lemma awaits_conclude ai r : awaits z d ai → awaits z d (conclude ai r).
Proof.
  intros Hp.
  destruct (conclude_cases ai r) as [[_ ->] | [(_ & _ & ->) | (_ & _ & ->)]]; [| | done].
  - apply (foldl_preserves mark_safe (awaits z d) (λ _, True));
      [intros; by apply awaits_mark_safe | by apply Forall_forall | done].
  - apply (foldl_preserves mark_mine (awaits z d) (λ _, True));
      [intros; by apply awaits_mark_mine | by apply Forall_forall | done].
Qed.

Lemma settled_conclude ai r : settled z ai → settled z (conclude ai r).
Proof.
  unfold settled. destruct (grows_conclude ai r) as (_ & _ & ? & ?). set_solver.
Qed.

Lemma awaits_conclude_derived ai : awaits z d ai → settled z (conclude ai d).
Proof.
  intros [Hd | H]; [| by apply settled_conclude].
  destruct (conclude_cases ai d) as [[H0 _] | [(_ & _ & ->) | (_ & Hne & _)]].
  - by rewrite Hd in H0.
  - rewrite Hd. cbn [Sentence.cells]. rewrite elements_singleton.
    left. simpl. set_solver.
  - rewrite Hd in Hne. cbn [Sentence.cells Sentence.count] in Hne.
    by rewrite size_singleton in Hne.
Qed.

Lemma derived_gets_marked ai l :
  d ∈ l → deref (store ai) d = Sentence.mk {[z]} 1 →
  z ∈ mines (foldl conclude ai l) ∨ z ∈ safes (foldl conclude ai l).
Proof.
  intros Hd Hs.
  apply (foldl_establishes conclude (awaits z d) (settled z) d); [| | | done | by left].
  - intros a r. apply awaits_conclude.
  - intros a r. apply settled_conclude.
  - apply awaits_conclude_derived.
Qed.

End conclusions_of_derived.

(** C4 (counterexample).  Two runs of [add_knowledge].
    (1) On a 2 × 5 board with mines at (0,1), (0,2) and (0,3), after the
    truthful observations (1,0) = 1, (0,0) = 1, (1,4) = 1, (0,4) = 1 and
    (1,2) = 3 the pool holds A = {(0,3),(1,3),(0,2)} = 2, which the subset
    rule of the last call has just derived, and B = {(0,3),(1,3)} = 1; that
    call derived no sentence {(0,2)} = 1 and (0,2) is not in [mines] when it
    returns.
    (2) On a 2 × 3 board, after the contradictory observations (0,0) = 1,
    (0,0) = 2 and (0,2) = 1, the call for (1,2) = 3 starts its subset step
    with A = {(0,1),(1,1),(1,0)} = 2 and B = {(0,1),(1,1)} = 1 in the pool,
    but the sentence {(1,0)} = 0, derived before {(1,0)} = 1, marks (1,0)
    safe first: (1,0) ends in [safes], not in [mines]. *)
Lemma subset_pair_left_unresolved :
  (∃ ai0 ai1 ai,
    replay (__init__ 2 5) [((1, 0), 1); ((0, 0), 1); ((1, 4), 1); ((0, 4), 1)]%Z = Ok ai0
    ∧ ingest ai0 (1, 2)%Z 3 = Ok ai1
    ∧ add_knowledge ai0 (1, 2)%Z 3 = Ok ai
    ∧ 5 ∈ knowledge ai ∧ 2 ∈ knowledge ai
    ∧ deref (store ai) 5 = Sentence.mk {[ (0, 3); (1, 3); (0, 2) ]}%Z 2
    ∧ deref (store ai) 2 = Sentence.mk {[ (0, 3); (1, 3) ]}%Z 1
    ∧ Forall (λ d, deref (resolve (store ai1) (knowledge ai1)).1 d
                   ≠ Sentence.mk {[ (0, 2)%Z ]} 1)
        (resolve (store ai1) (knowledge ai1)).2
    ∧ mines ai = ∅)
  ∧ (∃ ai0 ai1 ai,
      replay (__init__ 2 3) [((0, 0), 1); ((0, 0), 2); ((0, 2), 1)]%Z = Ok ai0
      ∧ ingest ai0 (1, 2)%Z 3 = Ok ai1
      ∧ add_knowledge ai0 (1, 2)%Z 3 = Ok ai
      ∧ 1 ∈ knowledge ai1 ∧ 4 ∈ knowledge ai1
      ∧ deref (store ai1) 1 = Sentence.mk {[ (0, 1); (1, 1); (1, 0) ]}%Z 2
      ∧ deref (store ai1) 4 = Sentence.mk {[ (0, 1); (1, 1) ]}%Z 1
      ∧ mines ai = ∅
      ∧ (1, 0)%Z ∈ safes ai).
Proof.
  split.
  - do 3 eexists. split; [vm_compute; reflexivity |].
    split; [vm_compute; reflexivity |]. split; [vm_compute; reflexivity |].
    split_and!; try (by vm_compute); apply (bool_decide_unpack _); by vm_compute.
  - do 3 eexists. split; [vm_compute; reflexivity |].
    split; [vm_compute; reflexivity |]. split; [vm_compute; reflexivity |].
    split_and!; try (by vm_compute); apply (bool_decide_unpack _); by vm_compute.
Qed.

(** C4 (as the program behaves).  If the pool holds two sentences
    A = {x,y,z} = 2 and B = {x,y} = 1 when the subset-resolution step of an
    [add_knowledge] call starts, then that step derives the sentence
    {z} = 1, the call returns, and [z] has been marked when it returns: it
    is in [mines], unless a conclusion drawn earlier in the same final loop
    has put it in [safes].  When the knowledge base agrees with a mine
    layout and the observation is one the board can report, [z] is in
    [mines]. *)
Theorem subset_rule_marks (ai0 ai : MinesweeperAI) (c : cell) (count : Z)
    (a b : ref) (x y z : cell) :
  ingest ai0 c count = Ok ai →
  a ∈ knowledge ai → b ∈ knowledge ai →
  deref (store ai) a = Sentence.mk {[x; y; z]} 2 →
  deref (store ai) b = Sentence.mk {[x; y]} 1 →
  z ≠ x → z ≠ y →
  ∃ ai',
    add_knowledge ai0 c count = Ok ai'
    ∧ (∃ d, d ∈ (resolve (store ai) (knowledge ai)).2
            ∧ deref (resolve (store ai) (knowledge ai)).1 d = Sentence.mk {[z]} 1)
    ∧ (z ∈ mines ai' ∨ z ∈ safes ai')
    ∧ (∀ M, consistent M ai0 → truthful M (height ai0) (width ai0) (c, count) →
            z ∈ mines ai').
Proof.
  intros Hing Hak Hbk Ha Hb Hzx Hzy.
  destruct (add_knowledge_Ok ai0 c count) as [ai' Hadd]. exists ai'.
  split; [done |].
  destruct (resolve_derives (store ai) (knowledge ai) a b x y z Ha Hb Hzx Hzy Hak Hbk)
    as (d & Hd & Hl).
  apply list_lookup_total_correct in Hl. fold (deref (resolve (store ai) (knowledge ai)).1 d) in Hl.
  split; [by exists d |].
  pose proof Hadd as (ai1 & Hing' & Hdig)%add_knowledge_inv.
  rewrite Hing in Hing'. injection Hing' as <-.
  apply digest_inv in Hdig as (k1 & additional & _ & Hrm & ->).
  cbn [store with_store] in Hrm.
  apply remove_empty_from_inv in Hrm as [_ Hkeep].
  assert (Hmarked : z ∈ mines (foldl conclude
                      (with_knowledge
                         (with_store ai (resolve (store ai) (knowledge ai)).1) k1)
                      additional)
                    ∨ z ∈ safes (foldl conclude
                      (with_knowledge
                         (with_store ai (resolve (store ai) (knowledge ai)).1) k1)
                      additional)).
  { apply (derived_gets_marked z d); [| done].
    apply Hkeep; [done |]. rewrite Hl. cbn [Sentence.cells]. set_solver. }
  split; [done |].
  intros M Hc Ht.
  pose proof (consistent_ingest M _ _ _ _ Hc Ht Hing) as (_ & _ & _ & Hst).
  pose proof (consistent_add_knowledge M _ _ _ _ Hc Ht Hadd) as (_ & Hsafe & _).
  pose proof (sat_deref M _ a Hst) as Hsa. pose proof (sat_deref M _ b Hst) as Hsb.
  rewrite Ha in Hsa. rewrite Hb in Hsb. unfold sat in Hsa, Hsb.
  cbn [Sentence.cells Sentence.count] in Hsa, Hsb.
  assert (z ∈ M).
  { destruct (decide (z ∈ M)) as [| Hz]; [done |].
    replace (({[x; y; z]} : gset cell) ∩ M) with (({[x; y]} : gset cell) ∩ M) in Hsa
      by set_solver.
    lia. }
  destruct Hmarked as [| Hs]; [done |]. set_solver.
Qed.

Lemma subset_rule_marks_witness :
  let ai0 := mkAI 2 3 {[ (1, 0); (1, 2) ]}%Z ∅ {[ (1, 0); (1, 2) ]}%Z [0; 1]
               [Sentence.mk {[ (0, 0); (0, 1); (1, 1) ]}%Z 1;
                Sentence.mk {[ (0, 1); (0, 2); (1, 1) ]}%Z 1] in
  ∃ ai', add_knowledge ai0 (1, 1)%Z 2 = Ok ai' ∧ (0, 2)%Z ∈ mines ai'.
Proof.
  intros ai0.
  pose (ai := match ingest ai0 (1, 1)%Z 2 with Ok ai => ai | Raise _ => ai0 end).
  destruct (subset_rule_marks ai0 ai (1, 1)%Z 2 2 0 (0, 0)%Z (0, 1)%Z (0, 2)%Z)
    as (ai' & Hadd & _ & _ & Hz).
  - vm_compute. reflexivity.
  - apply (bool_decide_unpack _). vm_compute. exact I.
  - apply (bool_decide_unpack _). vm_compute. exact I.
  - vm_compute. reflexivity.
  - vm_compute. reflexivity.
  - intros [= ?].
  - intros [= ?].
  - exists ai'. split; [exact Hadd |].
    apply (Hz {[ (0, 0); (0, 2) ]}%Z).
    + split_and!; try (apply (bool_decide_unpack _); vm_compute; exact I).
      repeat constructor; vm_compute; reflexivity.
    + split; [apply (bool_decide_unpack _); vm_compute; exact I |].
      vm_compute. reflexivity.
Defined.

(** * Further properties of the program *)

(** ** Move selection *)

Lemma make_safe_move_cases (ai : MinesweeperAI) :
  (∃ c, make_safe_move ai = Some c ∧ c ∈ safes ai ∧ c ∉ moves_made ai)
  ∨ (make_safe_move ai = None ∧ safes ai ⊆ moves_made ai).
Proof.
  unfold make_safe_move. case_decide as Hsz.
  - destruct (filter _ (elements (safes ai))) as [| c l] eqn:Hf; simpl.
    + right. split; [done |]. intros c Hc%elem_of_elements.
      destruct (decide (c ∈ moves_made ai)) as [| Hn]; [done |].
      assert (c ∈ filter (λ c, c ∉ moves_made ai) (elements (safes ai)))
        as Hin by (by apply list_elem_of_filter).
      rewrite Hf in Hin. by apply elem_of_nil in Hin.
    + left. exists c. split; [done |].
      assert (c ∈ filter (λ c, c ∉ moves_made ai) (elements (safes ai)))
        as [? ?%elem_of_elements]%list_elem_of_filter by (rewrite Hf; constructor).
      done.
  - right. split; [done |].
    assert (safes ai ≡ ∅) by (apply size_empty_iff; lia). set_solver.
Qed.

(** X1. [make_safe_move] returns a cell known to be safe that has not been
    played, and it returns [None] only when every safe cell has been
    played. *)
Theorem make_safe_move_spec (ai : MinesweeperAI) :
  (∃ c, make_safe_move ai = Some c ∧ c ∈ safes ai ∧ c ∉ moves_made ai)
  ∨ (make_safe_move ai = None ∧ safes ai ⊆ moves_made ai).
Proof. apply make_safe_move_cases. Qed.

(** X2. [make_random_move] draws from the cells of rows below [height - 1]
    and columns below [width - 1] that are neither played nor known mines:
    an index below the number of candidates yields one of them, a larger
    one (or an empty candidate set) yields [None], and every candidate is
    the answer to some index. *)
Theorem make_random_move_spec (ai : MinesweeperAI) (randint : nat) :
  (∀ i j, (i, j) ∈ random_candidates ai
          ↔ (0 ≤ i < height ai - 1 ∧ 0 ≤ j < width ai - 1)%Z
            ∧ (i, j) ∉ moves_made ai ∪ mines ai)
  ∧ ((∃ c, make_random_move ai randint = Some c
           ∧ c ∈ random_candidates ai ∧ randint < size (random_candidates ai))
     ∨ (make_random_move ai randint = None ∧ size (random_candidates ai) ≤ randint))
  ∧ Forall (λ c, ∃ r, r < size (random_candidates ai) ∧ make_random_move ai r = Some c)
      (elements (random_candidates ai)).
Proof.
  split_and!.
  - intros i j. unfold random_candidates.
    by rewrite elem_of_difference, elem_of_grid.
  - unfold make_random_move. case_decide as Hsz.
    + destruct (elements (random_candidates ai) !! randint) as [c |] eqn:Hl.
      * left. exists c. split; [done |]. split.
        -- by eapply elem_of_elements, list_elem_of_lookup_2.
        -- apply lookup_lt_Some in Hl. done.
      * right. split; [done |]. by apply lookup_ge_None in Hl.
    + right. split; [done | lia].
  - apply Forall_forall. intros c Hc.
    apply list_elem_of_lookup in Hc as [r Hr]. exists r.
    pose proof (lookup_lt_Some _ _ _ Hr) as Hlt. split; [done |].
    unfold make_random_move. rewrite decide_True; [done |].
    unfold size, set_size in *; simpl in *. lia.
Qed.

(** ** Marking and truth of sentences *)

Lemma foldl_sentence_mark_safe (l : list cell) (s : Sentence.t) :
  foldl Sentence.mark_safe s l
  = Sentence.mk (Sentence.cells s ∖ list_to_set l) (Sentence.count s).
Proof.
  revert s. induction l as [| c l IH]; intros s; simpl.
  - apply sentence_ext; simpl; [set_solver | done].
  - rewrite IH, mark_safe_cells, mark_safe_count. f_equal. set_solver.
Qed.

Lemma foldl_sentence_mark_mine (l : list cell) (s : Sentence.t) :
  NoDup l → (∀ c, c ∈ l → c ∈ Sentence.cells s) →
  foldl Sentence.mark_mine s l
  = Sentence.mk (Sentence.cells s ∖ list_to_set l)
      (Sentence.count s - Z.of_nat (length l)).
Proof.
  intros Hnd. revert s. induction Hnd as [| c l Hc Hnd IH]; intros s Hin; simpl.
  - apply sentence_ext; simpl; [set_solver | lia].
  - rewrite IH.
    + rewrite mark_mine_cells, mark_mine_count.
      rewrite decide_True by (apply Hin; constructor). f_equal; [set_solver | lia].
    + intros c' Hc'. rewrite mark_mine_cells. apply elem_of_difference. split.
      * apply Hin. by constructor.
      * rewrite elem_of_singleton. by intros ->.
Qed.

(** X3. Drawing all the conclusions of a sentence uses it up: marking every
    cell of [known_safes] safe, or every cell of [known_mines] a mine, turns
    a sentence that allows the conclusion into the empty sentence {} = 0,
    and leaves any other sentence as it is. *)
Theorem conclusions_use_up_sentence (s : Sentence.t) :
  foldl Sentence.mark_safe s (elements (Sentence.known_safes s))
  = (if decide (Sentence.count s = 0%Z) then Sentence.mk ∅ 0 else s)
  ∧ foldl Sentence.mark_mine s (elements (Sentence.known_mines s))
    = (if decide (Z.of_nat (size (Sentence.cells s)) = Sentence.count s)
       then Sentence.mk ∅ 0 else s).
Proof.
  unfold Sentence.known_safes, Sentence.known_mines. split.
  - case_decide as H0; [| by rewrite elements_empty].
    rewrite foldl_sentence_mark_safe, list_to_set_elements_L, H0. f_equal. set_solver.
  - case_decide as Hm; [| by rewrite elements_empty].
    rewrite foldl_sentence_mark_mine.
    + rewrite list_to_set_elements_L. f_equal; [set_solver |].
      unfold size, set_size in Hm; simpl in Hm. lia.
    + apply NoDup_elements.
    + intros c. apply elem_of_elements.
Qed.

(** X4. A sentence that is true of a mine layout stays true when one of its
    cells is marked for what it is (a mine marked as mine, any other cell
    as safe), and a true sentence has a count between 0 and its number of
    cells. *)
Theorem marking_keeps_truth (M : gset cell) (s : Sentence.t) (c : cell) :
  sat M s →
  sat M (if decide (c ∈ M) then Sentence.mark_mine s c else Sentence.mark_safe s c)
  ∧ (0 ≤ Sentence.count s ≤ Z.of_nat (size (Sentence.cells s)))%Z.
Proof.
  intros Hs. split.
  - case_decide; [by apply sat_mark_mine | by apply sat_mark_safe].
  - unfold sat in Hs. rewrite <- Hs.
    assert (size (Sentence.cells s ∩ M) ≤ size (Sentence.cells s))
      by (apply subseteq_size; set_solver).
    lia.
Qed.

Lemma marking_keeps_truth_witness :
  let M : gset cell := {[ (0, 1)%Z ]} in
  let s := Sentence.mk {[ (0, 0); (0, 1) ]}%Z 1 in
  sat M (Sentence.mark_mine s (0, 1)%Z)
  ∧ (0 ≤ Sentence.count s ≤ Z.of_nat (size (Sentence.cells s)))%Z.
Proof.
  intros M s.
  destruct (marking_keeps_truth M s (0, 1)%Z) as [H1 H2].
  - vm_compute. reflexivity.
  - split; [| exact H2]. rewrite decide_True in H1 by set_solver. exact H1.
Defined.

(** X5. The order in which cells are marked does not matter: marking the
    cells of two lists that are permutations of each other, as safe or as
    mines, leaves the same knowledge base. *)
Theorem marking_order_irrelevant (ai : MinesweeperAI) (l l' : list cell) :
  l ≡ₚ l' →
  foldl mark_safe ai l = foldl mark_safe ai l'
  ∧ foldl mark_mine ai l = foldl mark_mine ai l'.
Proof.
  intros Hl. split; apply foldl_any_order; auto using mark_safe_comm, mark_mine_comm.
Qed.

Lemma marking_order_irrelevant_witness :
  let ai := mkAI 2 2 ∅ ∅ ∅ [0] [Sentence.mk {[ (0, 0); (0, 1); (1, 1) ]}%Z 2] in
  foldl mark_mine ai [(0, 0); (0, 1)]%Z = foldl mark_mine ai [(0, 1); (0, 0)]%Z.
Proof.
  intros ai.
  destruct (marking_order_irrelevant ai [(0, 0); (0, 1)]%Z [(0, 1); (0, 0)]%Z) as [_ H].
  - apply perm_swap.
  - exact H.
Defined.

(** ** The clean-up loop *)

Lemma list_remove_first (h : list Sentence.t) (x : Sentence.t) (l l' : list ref) :
  list_remove h x l = Ok l' →
  ∃ l1 r l2, l = l1 ++ r :: l2 ∧ l' = l1 ++ l2 ∧ deref h r = x
             ∧ Forall (λ r', deref h r' ≠ x) l1.
Proof.
  revert l'. induction l as [| r l IH]; intros l'; simpl; [done |].
  destruct (Sentence.__eq__ (deref h r) x) eqn:He.
  - intros [= <-]. exists [], r, l. by apply eq_spec in He.
  - rewrite bind_Ok. intros (l'' & Hrec & [= <-]).
    destruct (IH _ Hrec) as (l1 & r' & l2 & -> & -> & Hx & Hl1).
    exists (r :: l1), r', l2. split_and!; try done.
    constructor; [| done]. intros Heq. apply eq_spec in Heq. congruence.
Qed.

Lemma remove_empty_from_keeps (h : list Sentence.t) (fuel i : nat) (l l' : list ref) :
  remove_empty_from h fuel i l = Ok l' →
  l' `sublist_of` l
  ∧ filter (λ r, Sentence.cells (deref h r) ≠ ∅) l'
    = filter (λ r, Sentence.cells (deref h r) ≠ ∅) l.
Proof.
  revert i l. induction fuel as [| fuel IH]; intros i l; simpl.
  { by intros [= <-]. }
  destruct (l !! i) as [r |] eqn:Hi; [| by intros [= <-]].
  case_decide as Hsz; [| apply IH].
  rewrite bind_Ok. intros (l1 & Hrm & Hrec).
  apply list_remove_first in Hrm as (la & r' & lb & -> & -> & Hr' & _).
  apply IH in Hrec as [Hsub Hfil]. split.
  - etrans; [apply Hsub |]. apply sublist_app; [done |]. by apply sublist_cons.
  - rewrite Hfil, !filter_app, filter_cons_False; [done |].
    apply size_empty_iff, leibniz_equiv in Hsz. rewrite Hr'. by intros ?.
Qed.

Lemma length_filter_drop2 {A} (P : A → Prop) `{!∀ x, Decision (P x)} (l : list A) (m : nat) :
  length (filter P (drop m l)) ≤ 2 + length (filter P (drop (2 + m) l)).
Proof.
  rewrite <- (take_drop 2 (drop m l)) at 1.
  rewrite filter_app, length_app, drop_drop, (Nat.add_comm m 2).
  pose proof (length_filter P (take 2 (drop m l))) as H1.
  rewrite length_take in H1. lia.
Qed.

(** Every removal lets the iterator skip one item, so a pass cannot leave
    more empty sentences behind than it removes. *)
Lemma remove_empty_from_half (h : list Sentence.t) (fuel i : nat) (l l' : list ref) :
  length l ≤ i + fuel →
  remove_empty_from h fuel i l = Ok l' →
  length (filter (λ r, Sentence.cells (deref h r) = ∅) (drop i l)) + 2 * length l'
  ≤ 2 * length l.
Proof.
  revert i l. induction fuel as [| fuel IH]; intros i l Hlen; simpl.
  { intros [= <-]. rewrite drop_ge by lia. simpl. lia. }
  destruct (l !! i) as [r |] eqn:Hi.
  2:{ intros [= <-]. apply lookup_ge_None in Hi. rewrite drop_ge by lia. simpl. lia. }
  case_decide as Hsz.
  - rewrite bind_Ok. intros (l1 & Hrm & Hrec).
    apply list_remove_first in Hrm as (la & r' & lb & -> & -> & Hr' & Hla).
    assert (Hle : length la ≤ i).
    { destruct (decide (length la ≤ i)) as [| Hgt]; [done |].
      rewrite lookup_app_l in Hi by lia.
      rewrite Forall_forall in Hla. exfalso.
      apply (Hla r); [by eapply list_elem_of_lookup_2 | done]. }
    rewrite length_app in Hlen. simpl in Hlen.
    apply IH in Hrec; [| rewrite length_app; lia].
    rewrite drop_app_ge in Hrec by lia. rewrite drop_app_ge by lia.
    rewrite !length_app in *. simpl.
    pose proof (length_filter_drop2 (λ r, Sentence.cells (deref h r) = ∅)
                  (r' :: lb) (i - length la)) as Hd.
    replace (2 + (i - length la)) with (S (S (i - length la))) in Hd by lia.
    cbn [drop] in Hd. replace (S i - length la) with (S (i - length la)) in Hrec by lia.
    lia.
  - intros Hrec. apply IH in Hrec; [| lia].
    rewrite (drop_S l r i Hi), filter_cons_False; [done |].
    intros He. apply Hsz. by rewrite He, size_empty.
Qed.

Lemma length_filter_split {A} (P : A → Prop) `{!∀ x, Decision (P x)} (l : list A) :
  length l = length (filter P l) + length (filter (λ x, ¬ P x) l).
Proof. by rewrite <- length_app, (filter_app_complement P l). Qed.

(** X6. A clean-up pass never raises, keeps every sentence that has cells,
    in the order of the list, removes only sentences without cells, and
    leaves behind at most half of those: a list with at most one sentence
    without cells comes out with none. *)
Theorem clean_up_spec (h : list Sentence.t) (l : list ref) :
  ∃ l', remove_empty h l = Ok l'
        ∧ l' `sublist_of` l
        ∧ filter (λ r, Sentence.cells (deref h r) ≠ ∅) l'
          = filter (λ r, Sentence.cells (deref h r) ≠ ∅) l
        ∧ 2 * length (filter (λ r, Sentence.cells (deref h r) = ∅) l')
          ≤ length (filter (λ r, Sentence.cells (deref h r) = ∅) l).
Proof.
  destruct (remove_empty_Ok h l) as [l' Hl']. exists l'. split; [done |].
  pose proof Hl' as [Hsub Hfil]%remove_empty_from_keeps.
  split; [done |]. split; [done |].
  apply remove_empty_from_half in Hl'; [| lia]. rewrite drop_0 in Hl'.
  assert (H1 : ∀ k : list ref,
    length k = length (filter (λ r, Sentence.cells (deref h r) = ∅) k)
               + length (filter (λ r, Sentence.cells (deref h r) ≠ ∅) k)).
  { intros k. apply (length_filter_split (λ r, Sentence.cells (deref h r) = ∅)). }
  pose proof (H1 l) as Hl. pose proof (H1 l') as Hk. rewrite Hfil in Hk. lia.
Qed.

(** ** Appending the derived sentences *)

Lemma sentence_in_spec (h : list Sentence.t) (d : ref) (k : list ref) :
  sentence_in h d k = true ↔ deref h d ∈ deref h <$> k.
Proof.
  unfold sentence_in. induction k as [| r k IH]; simpl.
  - split; [done | by intros ?%elem_of_nil].
  - rewrite orb_true_iff, IH, eq_spec, elem_of_cons. naive_solver.
Qed.

Lemma add_new_fold (h : list Sentence.t) (additional_knowledge k : list ref) :
  ∃ appended,
    foldl (λ k sentence, if sentence_in h sentence k then k else k ++ [sentence])
      k additional_knowledge = k ++ appended
    ∧ appended `sublist_of` additional_knowledge
    ∧ NoDup (deref h <$> appended)
    ∧ Forall (λ r, deref h r ∉ deref h <$> k) appended
    ∧ Forall (λ d, deref h d ∈ deref h <$> (k ++ appended)) additional_knowledge.
Proof.
  revert k. induction additional_knowledge as [| d add IH]; intros k; simpl.
  - exists []. rewrite app_nil_r. split_and!; try done; constructor.
  - destruct (sentence_in h d k) eqn:Hin.
    + destruct (IH k) as (app & -> & Hsub & Hnd & Hfresh & Hall).
      exists app. split_and!; try done; [by apply sublist_cons |].
      constructor; [| done]. apply sentence_in_spec in Hin.
      rewrite fmap_app. set_solver.
    + destruct (IH (k ++ [d])) as (app & -> & Hsub & Hnd & Hfresh & Hall).
      exists (d :: app). rewrite <- app_assoc. simpl. split_and!.
      * done.
      * by apply sublist_skip.
      * change (NoDup (deref h d :: (deref h <$> app))).
        apply NoDup_cons. split; [| done].
        intros (r & Hr & Hrin)%list_elem_of_fmap.
        rewrite Forall_forall in Hfresh. apply (Hfresh r Hrin).
        rewrite fmap_app, <- Hr. set_solver.
      * constructor.
        -- intros Hd. apply sentence_in_spec in Hd. congruence.
        -- eapply Forall_impl; [apply Hfresh |]. intros r Hr.
           rewrite fmap_app in Hr. set_solver.
      * constructor; [rewrite fmap_app, fmap_cons; set_solver |].
        by rewrite <- app_assoc in Hall.
Qed.

Lemma add_new_appends (h : list Sentence.t) (k additional_knowledge : list ref) :
  ∃ appended,
    add_new h k additional_knowledge = k ++ appended
    ∧ appended `sublist_of` additional_knowledge
    ∧ NoDup (deref h <$> appended)
    ∧ Forall (λ r, deref h r ∉ deref h <$> k) appended
    ∧ Forall (λ d, deref h d ∈ deref h <$> (k ++ appended)) additional_knowledge.
Proof.
  unfold add_new. case_decide as Hlen; [apply add_new_fold |].
  destruct additional_knowledge; [| done].
  exists []. rewrite app_nil_r. split_and!; try done; constructor.
Qed.

(** X7. Lines 281-284 extend the pool at its end, by derived sentences taken
    in the order they were derived; the appended sentences differ pairwise
    and from every sentence the pool already held, and every derived
    sentence is then present in the pool, as itself or as an equal
    sentence. *)
Theorem add_new_spec (h : list Sentence.t) (k additional_knowledge : list ref) :
  ∃ appended,
    add_new h k additional_knowledge = k ++ appended
    ∧ appended `sublist_of` additional_knowledge
    ∧ NoDup (deref h <$> appended)
    ∧ Forall (λ r, deref h r ∉ deref h <$> k) appended
    ∧ Forall (λ d, deref h d ∈ deref h <$> (k ++ appended)) additional_knowledge.
Proof. apply add_new_appends. Qed.

(** ** The subset rule over the whole pool *)

Section resolution.
Variables (h : list Sentence.t) (k : list ref).
Hypothesis Hk : Forall (λ r, r < length h) k.

Lemma deref_pool acc r : store_extends h acc → r ∈ k → deref acc.1 r = deref h r.
Proof.
  intros [t ->] Hr. apply deref_app. rewrite Forall_forall in Hk. by apply Hk.
Qed.

Lemma subset_rule_cases r1 r2 acc :
  store_extends h acc → r1 ∈ k → r2 ∈ k →
  (resolvable (deref h r1) (deref h r2)
   ∧ subset_rule r1 r2 acc
     = (acc.1 ++ [difference (deref h r1) (deref h r2)], acc.2 ++ [length acc.1]))
  ∨ (¬ resolvable (deref h r1) (deref h r2) ∧ subset_rule r1 r2 acc = acc).
Proof.
  intros Hext H1 H2. destruct acc as [h' add]. unfold subset_rule, resolvable.
  change h' with (h', add).1. rewrite !deref_pool by done. cbn [fst snd].
  destruct (Sentence.__eq__ (deref h r2) (deref h r1)) eqn:He; cbn [negb].
  - right. apply eq_spec in He. split; [tauto | done].
  - assert (deref h r2 ≠ deref h r1).
    { intros Heq%eq_spec. congruence. }
    case_decide; [left | right]; split; try done. tauto.
Qed.

Lemma subset_rule_keeps_all_derived r1 r2 acc :
  r1 ∈ k → r2 ∈ k →
  store_extends h acc ∧ all_derived h k acc →
  store_extends h (subset_rule r1 r2 acc) ∧ all_derived h k (subset_rule r1 r2 acc).
Proof.
  intros H1 H2 [Hext Hall]. split; [by apply subset_rule_keeps_extends |].
  destruct (subset_rule_cases r1 r2 acc Hext H1 H2) as [[Hres ->] | [_ ->]]; [| done].
  unfold all_derived in *. cbn [fst snd]. apply Forall_app. split.
  - eapply Forall_impl; [apply Hall |]. intros d [Hd Hfrom]. cbn beta in *.
    rewrite length_app. split; [lia |]. by rewrite deref_app.
  - apply Forall_singleton. rewrite length_app. simpl. split; [lia |].
    unfold deref. rewrite list_lookup_total_middle by done.
    by exists r1, r2.
Qed.

Lemma subset_rule_keeps_listed s r1 r2 acc : listed s acc → listed s (subset_rule r1 r2 acc).
Proof.
  unfold listed. intros (d & Hd & Hl).
  destruct (subset_rule_extends r1 r2 acc) as (t & u & Ht & Hu).
  exists d. rewrite Ht, Hu. split; [set_solver | by apply lookup_app_l_Some].
Qed.

Lemma resolve_sound :
  store_extends h (resolve h k) ∧ all_derived h k (resolve h k).
Proof.
  unfold resolve.
  apply (foldl_preserves _ (λ acc, store_extends h acc ∧ all_derived h k acc) (λ r, r ∈ k)).
  - intros acc r1 Hr1 Hacc.
    apply (foldl_preserves _ (λ acc, store_extends h acc ∧ all_derived h k acc)
             (λ r, r ∈ k)); [| by apply Forall_forall | done].
    intros acc' r2 Hr2. by apply subset_rule_keeps_all_derived.
  - by apply Forall_forall.
  - split; [exists []; by rewrite app_nil_r | constructor].
Qed.

Lemma resolve_complete a b :
  a ∈ k → b ∈ k → resolvable (deref h a) (deref h b) →
  listed (difference (deref h a) (deref h b)) (resolve h k).
Proof.
  intros Ha Hb Hres. unfold resolve.
  apply (foldl_establishes _ (λ acc, store_extends h acc) (listed _) a);
    [| | | done | by exists []; rewrite app_nil_r].
  - intros acc r1 Hacc.
    apply (foldl_preserves _ (store_extends h) (λ _, True)); [| by apply Forall_forall | done].
    intros acc' r2 _. apply subset_rule_keeps_extends.
  - intros acc r1 Hacc.
    apply (foldl_preserves _ (listed _) (λ _, True)); [| by apply Forall_forall | done].
    intros acc' r2 _. apply subset_rule_keeps_listed.
  - intros acc Hacc.
    apply (foldl_establishes _ (store_extends h) (listed _) b); [| | | done | done].
    + intros acc' r2. apply subset_rule_keeps_extends.
    + intros acc' r2. apply subset_rule_keeps_listed.
    + intros acc' Hext.
      destruct (subset_rule_cases a b acc' Hext Ha Hb) as [[_ ->] | [Hn _]]; [| done].
      exists (length acc'.1). cbn [fst snd].
      split; [apply elem_of_app; right; constructor |].
      by rewrite list_lookup_middle.
Qed.

End resolution.

(** X8. On a pool whose references are live, the subset step only appends
    objects to the store; every sentence it derives is the difference
    (cells1 - cells2, count1 - count2) of two different pool sentences with
    cells2 a subset of cells1; and for every such ordered pair of pool
    sentences the difference is derived. *)
Theorem resolve_spec (h : list Sentence.t) (k : list ref) :
  Forall (λ r, r < length h) k →
  store_extends h (resolve h k)
  ∧ Forall (λ d, derived_from h k (deref (resolve h k).1 d)) (resolve h k).2
  ∧ Forall (λ a, Forall (λ b,
              ¬ resolvable (deref h a) (deref h b)
              ∨ listed (difference (deref h a) (deref h b)) (resolve h k)) k) k.
Proof.
  intros Hk. destruct (resolve_sound h k Hk) as [Hext Hall]. split_and!.
  - done.
  - eapply Forall_impl; [apply Hall |]. by intros d [_ ?].
  - apply Forall_forall. intros a Ha. apply Forall_forall. intros b Hb.
    destruct (decide (deref h b ≠ deref h a ∧ Sentence.cells (deref h b) ⊆ Sentence.cells (deref h a)))
      as [Hres | Hn]; [right | by left].
    by apply resolve_complete.
Qed.

Lemma resolve_spec_witness :
  let h := [Sentence.mk {[ (0, 0); (0, 1); (0, 2) ]}%Z 2;
            Sentence.mk {[ (0, 0); (0, 1) ]}%Z 1] in
  listed (Sentence.mk {[ (0, 2)%Z ]} 1) (resolve h [0; 1]).
Proof.
  intros h.
  destruct (resolve_spec h [0; 1]) as (_ & _ & Hc).
  - repeat constructor.
  - apply Forall_cons in Hc as [Hc _]. apply Forall_cons in Hc as [_ Hc].
    apply Forall_cons in Hc as [[Hn | Hl] _].
    + exfalso. apply Hn. split; [by intros [= ?] |].
      apply (bool_decide_unpack _). vm_compute. exact I.
    + assert (difference (deref h 0) (deref h 1) = Sentence.mk {[ (0, 2)%Z ]} 1) as <-
        by (by vm_compute).
      exact Hl.
Defined.

(** ** What [add_knowledge] records *)

Lemma framed_refl ai : framed ai ai.
Proof. by repeat split. Qed.

Lemma framed_trans ai1 ai2 ai3 : framed ai1 ai2 → framed ai2 ai3 → framed ai1 ai3.
Proof. unfold framed. intros (-> & -> & ->) (-> & -> & ->). done. Qed.

Lemma framed_mark_safe ai c : framed ai (mark_safe ai c).
Proof. unfold framed; simpl. by rewrite length_update_all. Qed.

Lemma framed_mark_mine ai c : framed ai (mark_mine ai c).
Proof. unfold framed; simpl. by rewrite length_update_all. Qed.

Lemma framed_foldl {B} (f : MinesweeperAI → B → MinesweeperAI) (l : list B) ai :
  (∀ a x, framed a (f a x)) → framed ai (foldl f ai l).
Proof.
  intros Hf. revert ai. induction l as [| x l IH]; intros ai; simpl.
  - apply framed_refl.
  - eapply framed_trans; [apply Hf | apply IH].
Qed.

Lemma framed_conclude ai r : framed ai (conclude ai r).
Proof.
  destruct (conclude_cases ai r) as [[_ ->] | [(_ & _ & ->) | (_ & _ & ->)]].
  - apply framed_foldl, framed_mark_safe.
  - apply framed_foldl, framed_mark_mine.
  - apply framed_refl.
Qed.

Lemma framed_conclude_new ai r : framed ai (conclude_new ai r).
Proof.
  destruct (conclude_new_cases ai r) as [[_ ->] | [(_ & _ & ->) | (_ & _ & ->)]].
  - apply framed_foldl, framed_mark_safe.
  - apply framed_foldl, framed_mark_mine.
  - apply framed_refl.
Qed.

Lemma framed_foldl_conclude ai l : framed ai (foldl conclude ai l).
Proof. apply framed_foldl, framed_conclude. Qed.

Lemma grows_foldl_conclude ai l : grows ai (foldl conclude ai l).
Proof. apply grows_foldl, grows_conclude. Qed.

Lemma add_knowledge_moves_made ai c count ai' :
  add_knowledge ai c count = Ok ai' → moves_made ai' = moves_made ai ∪ {[c]}.
Proof.
  intros (ai1 & Hing & Hdig)%add_knowledge_inv.
  apply ingest_inv in Hing as (ai0 & new_sentence & k & Hobs & _ & ->).
  apply digest_inv in Hdig as (k1 & additional & _ & _ & ->).
  rewrite observe_spec in Hobs. injection Hobs as <- <-.
  match goal with |- moves_made (foldl conclude ?a ?l) = _ =>
    destruct (framed_foldl_conclude a l) as (-> & _ & _) end.
  cbn [moves_made with_knowledge with_store].
  match goal with |- moves_made (foldl conclude ?a ?l) = _ =>
    destruct (framed_foldl_conclude a l) as (-> & _ & _) end.
  match goal with |- moves_made (conclude_new ?a ?r) = _ =>
    destruct (framed_conclude_new a r) as (-> & _ & _) end.
  done.
Qed.

Lemma add_knowledge_cell_safe ai c count ai' :
  add_knowledge ai c count = Ok ai' → c ∈ safes ai'.
Proof.
  intros (ai1 & Hing & Hdig)%add_knowledge_inv.
  apply grows_digest in Hdig as (_ & _ & Hs & _). cbn [safes with_store] in Hs.
  apply Hs. clear Hs.
  apply ingest_inv in Hing as (ai0 & new_sentence & k & Hobs & _ & ->).
  rewrite observe_spec in Hobs. injection Hobs as <- <-.
  cbn [safes with_knowledge].
  match goal with |- c ∈ safes (foldl conclude (conclude_new ?a ?r) ?l) =>
    destruct (grows_foldl_conclude (conclude_new a r) l) as (_ & _ & H1 & _);
    destruct (grows_conclude_new a r) as (_ & _ & H2 & _) end.
  apply H1, H2. simpl. set_solver.
Qed.

(** X9. A call of [add_knowledge] adds the observed cell, and nothing else,
    to [moves_made], makes it a safe cell, and keeps the dimensions of the
    board. *)
Theorem add_knowledge_records_move (ai : MinesweeperAI) (c : cell) (count : Z) :
  ∃ ai', add_knowledge ai c count = Ok ai'
         ∧ moves_made ai' = moves_made ai ∪ {[c]}
         ∧ c ∈ safes ai'
         ∧ height ai' = height ai ∧ width ai' = width ai.
Proof.
  destruct (add_knowledge_Ok ai c count) as [ai' Hadd]. exists ai'.
  split; [done |]. split; [by eapply add_knowledge_moves_made |].
  split; [by eapply add_knowledge_cell_safe |].
  by apply grows_add_knowledge in Hadd as (? & ? & _).
Qed.

Lemma replay_moves_made (obs : list (cell * Z)) (ai : MinesweeperAI) :
  moves_made ai ⊆ safes ai →
  ∃ ai', replay ai obs = Ok ai'
         ∧ moves_made ai' = moves_made ai ∪ list_to_set obs.*1
         ∧ moves_made ai' ⊆ safes ai'.
Proof.
  revert ai. induction obs as [| [c count] obs IH]; intros ai Hai.
  - exists ai. split; [done |]. split; [set_solver | done].
  - destruct (add_knowledge_Ok ai c count) as [ai1 H1].
    destruct (IH ai1) as (ai' & Hr & Hm & Hs).
    + rewrite (add_knowledge_moves_made _ _ _ _ H1).
      pose proof (add_knowledge_cell_safe _ _ _ _ H1).
      apply grows_add_knowledge in H1 as (_ & _ & ? & _). set_solver.
    + exists ai'. split; [unfold replay in *; simpl; by rewrite H1 |].
      split; [| done]. rewrite Hm, (add_knowledge_moves_made _ _ _ _ H1).
      rewrite fmap_cons. simpl. set_solver.
Qed.

(** X10. After any sequence of [add_knowledge] calls on a fresh knowledge
    base, [moves_made] is exactly the set of observed cells, and every
    played cell is in [safes]. *)
Theorem played_cells_are_safe (h w : Z) (obs : list (cell * Z)) :
  ∃ ai, replay (__init__ h w) obs = Ok ai
        ∧ moves_made ai = list_to_set obs.*1
        ∧ moves_made ai ⊆ safes ai.
Proof.
  destruct (replay_moves_made obs (__init__ h w)) as (ai & Hr & Hm & Hs); [done |].
  exists ai. split; [done |]. split; [| done]. rewrite Hm. simpl. set_solver.
Qed.

(** ** The pool mentions no cell whose status is known *)

Lemma deref_snoc (h : list Sentence.t) (s : Sentence.t) (r : ref) :
  deref (h ++ [s]) r = if decide (r = length h) then s else deref h r.
Proof.
  unfold deref. case_decide as Hr.
  - by apply list_lookup_total_middle.
  - rewrite !list_lookup_total_alt. destruct (decide (r < length h)).
    + by rewrite lookup_app_l.
    + rewrite !lookup_ge_None_2; [done | lia |]. rewrite length_app. simpl. lia.
Qed.

Lemma deref_update_all m c k h (r : ref) :
  (∀ s, m (m s c) c = m s c) → m inhabitant c = inhabitant →
  deref (update_all m c k h) r = if decide (r ∈ k) then m (deref h r) c else deref h r.
Proof.
  intros Hm Hi. unfold deref. rewrite !list_lookup_total_alt, update_all_lookup by done.
  case_decide; [| done]. destruct (h !! r); [done | symmetry; exact Hi].
Qed.

Lemma simplified_mark_safe ai c : simplified ai → simplified (mark_safe ai c).
Proof.
  unfold simplified. cbn [mark_safe knowledge store safes mines with_store with_safes].
  intros Hs. apply Forall_forall. intros r Hr. rewrite Forall_forall in Hs.
  specialize (Hs r Hr).
  rewrite deref_update_all; [| intros s; apply mark_safe_idemp | done].
  rewrite decide_True by done. rewrite mark_safe_cells. set_solver.
Qed.

Lemma simplified_mark_mine ai c : simplified ai → simplified (mark_mine ai c).
Proof.
  unfold simplified. cbn [mark_mine knowledge store safes mines with_store with_mines].
  intros Hs. apply Forall_forall. intros r Hr. rewrite Forall_forall in Hs.
  specialize (Hs r Hr).
  rewrite deref_update_all; [| intros s; apply mark_mine_idemp | done].
  rewrite decide_True by done. rewrite mark_mine_cells. set_solver.
Qed.

Lemma simplified_conclude ai r : simplified ai → simplified (conclude ai r).
Proof.
  intros Hs.
  destruct (conclude_cases ai r) as [[_ ->] | [(_ & _ & ->) | (_ & _ & ->)]]; [| | done].
  - apply (foldl_preserves mark_safe simplified (λ _, True));
      [intros; by apply simplified_mark_safe | by apply Forall_forall | done].
  - apply (foldl_preserves mark_mine simplified (λ _, True));
      [intros; by apply simplified_mark_mine | by apply Forall_forall | done].
Qed.

Lemma simplified_conclude_new ai r : simplified ai → simplified (conclude_new ai r).
Proof.
  intros Hs.
  destruct (conclude_new_cases ai r) as [[_ ->] | [(_ & _ & ->) | (_ & _ & ->)]]; [| | done].
  - apply (foldl_preserves mark_safe simplified (λ _, True));
      [intros; by apply simplified_mark_safe | by apply Forall_forall | done].
  - apply (foldl_preserves mark_mine simplified (λ _, True));
      [intros; by apply simplified_mark_mine | by apply Forall_forall | done].
Qed.

Lemma simplified_foldl_conclude ai l : simplified ai → simplified (foldl conclude ai l).
Proof.
  apply (foldl_preserves conclude simplified (λ _, True)).
  - intros a x _. apply simplified_conclude.
  - by apply Forall_forall.
Qed.

Lemma simplified_observe ai c count ai' new_sentence :
  simplified ai → observe ai c count = Ok (ai', new_sentence) → simplified ai'.
Proof.
  intros Hs. rewrite observe_spec. intros [= <- _].
  unfold simplified in *. cbn [knowledge store safes mines].
  rewrite Forall_forall in Hs. apply Forall_forall. intros r Hr.
  rewrite deref_snoc, length_update_all.
  case_decide as Hnew.
  - cbn [Sentence.cells].
    assert (c ∉ in_grid (grid (height ai) (width ai)) (around c)).
    { rewrite elem_of_in_grid. intros [? _]. by eapply around_irrefl. }
    set_solver.
  - apply elem_of_app in Hr as [Hr | Hr]; [| set_solver].
    rewrite deref_update_all; [| intros s; apply mark_safe_idemp | done].
    rewrite decide_True by done. rewrite mark_safe_cells.
    specialize (Hs r Hr). set_solver.
Qed.

Lemma simplified_subset ai (k : list ref) :
  k ⊆ knowledge ai → simplified ai → simplified (with_knowledge ai k).
Proof.
  unfold simplified. cbn [knowledge store safes mines with_knowledge].
  rewrite !Forall_forall. intros Hk Hs r Hr. by apply Hs, Hk.
Qed.

Lemma simplified_ingest ai c count ai' :
  simplified ai → ingest ai c count = Ok ai' → simplified ai'.
Proof.
  intros Hs (ai0 & new_sentence & k & Hobs & Hk & ->)%ingest_inv.
  apply remove_empty_from_inv in Hk as [Hk _].
  apply simplified_subset; [done |].
  by eapply simplified_foldl_conclude, simplified_conclude_new, simplified_observe.
Qed.

Lemma subset_rule_keeps_clear (S : gset cell) (k : list ref) r1 r2 acc :
  r1 ∈ k →
  Forall (λ r, Sentence.cells (deref acc.1 r) ## S) (k ++ acc.2) →
  Forall (λ r, Sentence.cells (deref (subset_rule r1 r2 acc).1 r) ## S)
    (k ++ (subset_rule r1 r2 acc).2).
Proof.
  intros Hr1 Hall. destruct acc as [h add]. unfold subset_rule.
  destruct (negb _); [| done]. case_decide; [| done]. cbn [fst snd] in *.
  rewrite Forall_forall in Hall.
  assert (Hnew : Sentence.cells (deref h r1) ∖ Sentence.cells (deref h r2) ## S).
  { specialize (Hall r1). set_solver. }
  rewrite app_assoc. apply Forall_app. split.
  - apply Forall_forall. intros r Hr. rewrite deref_snoc.
    case_decide; [done | by apply Hall].
  - apply Forall_singleton. rewrite deref_snoc. by rewrite decide_True.
Qed.

Lemma resolve_keeps_clear (S : gset cell) (h : list Sentence.t) (k : list ref) :
  Forall (λ r, Sentence.cells (deref h r) ## S) k →
  Forall (λ r, Sentence.cells (deref (resolve h k).1 r) ## S) (k ++ (resolve h k).2).
Proof.
  intros Hk. unfold resolve.
  apply (foldl_preserves _
           (λ acc, Forall (λ r, Sentence.cells (deref acc.1 r) ## S) (k ++ acc.2))
           (λ r, r ∈ k)).
  - intros acc r1 Hr1 Hacc.
    apply (foldl_preserves _
             (λ acc, Forall (λ r, Sentence.cells (deref acc.1 r) ## S) (k ++ acc.2))
             (λ _, True)); [| by apply Forall_forall | done].
    intros acc' r2 _. by apply subset_rule_keeps_clear.
  - by apply Forall_forall.
  - cbn [fst snd]. by rewrite app_nil_r.
Qed.

Lemma simplified_add_knowledge ai c count ai' :
  simplified ai → add_knowledge ai c count = Ok ai' → simplified ai'.
Proof.
  intros Hs (ai1 & Hing & Hdig)%add_knowledge_inv.
  eapply simplified_ingest in Hing; [| done].
  apply digest_inv in Hdig as (k1 & additional & Hk1 & _ & ->).
  apply simplified_foldl_conclude.
  apply remove_empty_from_inv in Hk1 as [Hk1 _].
  cbn [store knowledge with_store] in Hk1.
  pose proof (resolve_keeps_clear (safes ai1 ∪ mines ai1) (store ai1) (knowledge ai1) Hing)
    as Hclear.
  destruct (add_new_appends (resolve (store ai1) (knowledge ai1)).1 (knowledge ai1)
              (resolve (store ai1) (knowledge ai1)).2) as (app & Happ & Hsub & _).
  unfold simplified. cbn [knowledge store safes mines with_knowledge with_store].
  rewrite Forall_forall in Hclear. apply Forall_forall. intros r Hr.
  apply Hclear. apply Hk1 in Hr. rewrite Happ in Hr.
  apply elem_of_app in Hr as [Hr | Hr]; [set_solver |].
  apply elem_of_app. right. by eapply elem_of_sublist.
Qed.

Lemma simplified_replay (obs : list (cell * Z)) (ai : MinesweeperAI) :
  simplified ai → ∃ ai', replay ai obs = Ok ai' ∧ simplified ai'.
Proof.
  revert ai. induction obs as [| [c count] obs IH]; intros ai Hai.
  - by exists ai.
  - destruct (add_knowledge_Ok ai c count) as [ai1 H1].
    destruct (IH ai1) as (ai' & Hr & Hs); [by eapply simplified_add_knowledge |].
    exists ai'. split; [| done]. unfold replay in *. simpl. by rewrite H1.
Qed.

(** X11. After any sequence of [add_knowledge] calls on a fresh knowledge
    base, truthful or not, no sentence of the pool mentions a cell that is
    in [safes] or in [mines]. *)
Theorem pool_is_simplified (h w : Z) (obs : list (cell * Z)) :
  ∃ ai, replay (__init__ h w) obs = Ok ai
        ∧ Forall (λ r, Sentence.cells (deref (store ai) r) ## safes ai ∪ mines ai)
            (knowledge ai).
Proof. apply simplified_replay. constructor. Qed.

(** ** Direct conclusions of an observation *)

Lemma safes_foldl_mark_safe (l : list cell) ai :
  safes (foldl mark_safe ai l) = safes ai ∪ list_to_set l.
Proof.
  revert ai. induction l as [| c l IH]; intros ai; simpl; [set_solver |].
  rewrite IH. simpl. set_solver.
Qed.

Lemma mines_foldl_mark_mine (l : list cell) ai :
  mines (foldl mark_mine ai l) = mines ai ∪ list_to_set l.
Proof.
  revert ai. induction l as [| c l IH]; intros ai; simpl; [set_solver |].
  rewrite IH. simpl. set_solver.
Qed.

(** The state right after the conclusions of the new sentence, and what the
    rest of the call does to it. *)
Lemma add_knowledge_from_new ai c count ai' :
  add_knowledge ai c count = Ok ai' →
  ∃ ai0 new_sentence,
    observe ai c count = Ok (ai0, new_sentence)
    ∧ grows (conclude_new ai0 new_sentence) ai'.
Proof.
  intros (ai1 & Hing & Hdig)%add_knowledge_inv.
  apply grows_digest in Hdig.
  apply ingest_inv in Hing as (ai0 & new_sentence & k & Hobs & _ & ->).
  exists ai0, new_sentence. split; [done |].
  eapply grows_trans; [| apply Hdig].
  eapply grows_trans; [apply (grows_foldl_conclude _ (knowledge (conclude_new ai0 new_sentence))) |].
  by repeat split.
Qed.

Lemma observe_new_sentence ai c count ai0 new_sentence :
  observe ai c count = Ok (ai0, new_sentence) →
  deref (store ai0) new_sentence
  = Sentence.mk
      (neighbors (height ai) (width ai) c ∖ (moves_made ai ∪ safes ai ∪ mines ai))
      (count - Z.of_nat (size (neighbors (height ai) (width ai) c ∩ mines ai))).
Proof.
  rewrite observe_spec. intros [= <- <-]. cbn [store]. unfold deref.
  by rewrite list_lookup_total_middle by (by rewrite length_update_all).
Qed.

(** X12. When the observed count equals the number of neighbours already
    known to be mines, [add_knowledge] marks every other in-bounds neighbour
    that was not known yet as safe. *)
Theorem zero_count_marks_safe (ai : MinesweeperAI) (c : cell) (count : Z) :
  count = Z.of_nat (size (neighbors (height ai) (width ai) c ∩ mines ai)) →
  ∃ ai', add_knowledge ai c count = Ok ai'
         ∧ neighbors (height ai) (width ai) c ∖ (moves_made ai ∪ safes ai ∪ mines ai)
           ⊆ safes ai'.
Proof.
  intros Hcount. destruct (add_knowledge_Ok ai c count) as [ai' Hadd]. exists ai'.
  split; [done |].
  apply add_knowledge_from_new in Hadd as (ai0 & new_sentence & Hobs & (_ & _ & Hs & _)).
  apply observe_new_sentence in Hobs.
  etrans; [| apply Hs].
  destruct (conclude_new_cases ai0 new_sentence) as [[_ ->] | [(Hn & _) | (Hn & _)]].
  - rewrite safes_foldl_mark_safe, list_to_set_elements_L, Hobs. cbn [Sentence.cells].
    set_solver.
  - rewrite Hobs in Hn. cbn [Sentence.count] in Hn. lia.
  - rewrite Hobs in Hn. cbn [Sentence.count] in Hn. lia.
Qed.

Lemma zero_count_marks_safe_witness :
  ∃ ai', add_knowledge (__init__ 8 8) (0, 0)%Z 0 = Ok ai'
         ∧ {[ (0, 1); (1, 0); (1, 1) ]}%Z ⊆ safes ai'.
Proof.
  destruct (zero_count_marks_safe (__init__ 8 8) (0, 0)%Z 0) as (ai' & Hadd & Hs).
  - vm_compute. reflexivity.
  - exists ai'. split; [exact Hadd |].
    assert (neighbors (height (__init__ 8 8)) (width (__init__ 8 8)) (0, 0)%Z
            ∖ (moves_made (__init__ 8 8) ∪ safes (__init__ 8 8) ∪ mines (__init__ 8 8))
            = {[ (0, 1); (1, 0); (1, 1) ]}%Z) as <- by (by vm_compute).
    exact Hs.
Defined.

(** X13. When the observed count, less the neighbours already known to be
    mines, equals the number of in-bounds neighbours not known yet,
    [add_knowledge] marks all of those as mines. *)
Theorem full_count_marks_mines (ai : MinesweeperAI) (c : cell) (count : Z) :
  (count - Z.of_nat (size (neighbors (height ai) (width ai) c ∩ mines ai)))%Z
  = Z.of_nat (size (neighbors (height ai) (width ai) c
                    ∖ (moves_made ai ∪ safes ai ∪ mines ai))) →
  ∃ ai', add_knowledge ai c count = Ok ai'
         ∧ neighbors (height ai) (width ai) c ∖ (moves_made ai ∪ safes ai ∪ mines ai)
           ⊆ mines ai'.
Proof.
  intros Hcount. destruct (add_knowledge_Ok ai c count) as [ai' Hadd]. exists ai'.
  split; [done |].
  apply add_knowledge_from_new in Hadd as (ai0 & new_sentence & Hobs & (_ & _ & _ & Hm)).
  apply observe_new_sentence in Hobs.
  etrans; [| apply Hm].
  destruct (conclude_new_cases ai0 new_sentence) as [[H0 _] | [(_ & _ & ->) | (_ & Hn & _)]].
  - rewrite Hobs in H0. cbn [Sentence.count] in H0.
    assert (neighbors (height ai) (width ai) c ∖ (moves_made ai ∪ safes ai ∪ mines ai) ≡ ∅)
      as He by (apply size_empty_iff; lia).
    set_solver.
  - rewrite mines_foldl_mark_mine, list_to_set_elements_L, Hobs. cbn [Sentence.cells].
    set_solver.
  - rewrite Hobs in Hn. cbn [Sentence.cells Sentence.count] in Hn. lia.
Qed.

Lemma full_count_marks_mines_witness :
  ∃ ai', add_knowledge (__init__ 8 8) (0, 0)%Z 3 = Ok ai'
         ∧ {[ (0, 1); (1, 0); (1, 1) ]}%Z ⊆ mines ai'.
Proof.
  destruct (full_count_marks_mines (__init__ 8 8) (0, 0)%Z 3) as (ai' & Hadd & Hs).
  - vm_compute. reflexivity.
  - exists ai'. split; [exact Hadd |].
    assert (neighbors (height (__init__ 8 8)) (width (__init__ 8 8)) (0, 0)%Z
            ∖ (moves_made (__init__ 8 8) ∪ safes (__init__ 8 8) ∪ mines (__init__ 8 8))
            = {[ (0, 1); (1, 0); (1, 1) ]}%Z) as <- by (by vm_compute).
    exact Hs.
Defined.

(** ** Soundness on truthful observations *)

(** X14. When every observation is one the board can report for a fixed
    mine layout, any sequence of [add_knowledge] calls on a fresh knowledge
    base leaves only mines in [mines] and no mine in [safes], and every
    sentence of the pool is true of the layout, with a count between 0 and
    its number of cells. *)
Theorem replay_sound (M : gset cell) (h w : Z) (obs : list (cell * Z)) :
  Forall (truthful M h w) obs →
  ∃ ai, replay (__init__ h w) obs = Ok ai
        ∧ mines ai ⊆ M ∧ safes ai ## M
        ∧ Forall (λ r, sat M (deref (store ai) r)
                       ∧ (0 ≤ Sentence.count (deref (store ai) r)
                          ≤ Z.of_nat (size (Sentence.cells (deref (store ai) r))))%Z)
            (knowledge ai).
Proof.
  intros Hobs.
  destruct (consistent_replay M obs (__init__ h w)) as (ai & Hr & Hm & Hs & _ & Hst);
    [apply consistent_init | done |].
  exists ai. split_and!; try done.
  apply Forall_forall. intros r _. pose proof (sat_deref M _ r Hst) as Hsat.
  split; [done |]. unfold sat in Hsat. rewrite <- Hsat.
  assert (size (Sentence.cells (deref (store ai) r) ∩ M)
          ≤ size (Sentence.cells (deref (store ai) r)))
    by (apply subseteq_size; set_solver).
  lia.
Qed.

Lemma replay_sound_witness :
  ∃ ai, replay (__init__ 2 3) [((1, 0), 1); ((1, 1), 1)]%Z = Ok ai
        ∧ mines ai ⊆ {[ (0, 0)%Z ]} ∧ safes ai ## {[ (0, 0)%Z ]}.
Proof.
  destruct (replay_sound {[ (0, 0)%Z ]} 2 3 [((1, 0), 1); ((1, 1), 1)]%Z)
    as (ai & Hr & Hm & Hs & _).
  - repeat constructor; simpl; first [by intros [= ?]%elem_of_singleton | by vm_compute].
  - exists ai. split; [exact Hr |]. split; [exact Hm | exact Hs].
Defined.

(** X15. On truthful observations a safe move is safe: after any sequence of
    truthful [add_knowledge] calls on a fresh knowledge base, the cell
    [make_safe_move] returns, if any, is not a mine and has not been
    played. *)
Theorem safe_move_is_safe (M : gset cell) (h w : Z) (obs : list (cell * Z)) :
  Forall (truthful M h w) obs →
  ∃ ai, replay (__init__ h w) obs = Ok ai
        ∧ (make_safe_move ai = None
           ∨ ∃ c, make_safe_move ai = Some c ∧ (c ∉ M) ∧ (c ∉ moves_made ai)).
Proof.
  intros Hobs.
  destruct (consistent_replay M obs (__init__ h w)) as (ai & Hr & _ & Hs & _);
    [apply consistent_init | done |].
  exists ai. split; [done |].
  destruct (make_safe_move_cases ai) as [(c & Hc & Hin & Hnp) | [Hn _]]; [right | by left].
  exists c. split; [done |]. split; [set_solver | done].
Qed.

Lemma safe_move_is_safe_witness :
  ∃ ai, replay (__init__ 2 3) [((1, 0), 1); ((1, 1), 1)]%Z = Ok ai
        ∧ (make_safe_move ai = None
           ∨ ∃ c, make_safe_move ai = Some c ∧ (c ∉ ({[ (0, 0)%Z ]} : gset cell))
                  ∧ (c ∉ moves_made ai)).
Proof.
  apply (safe_move_is_safe {[ (0, 0)%Z ]}).
  repeat constructor; simpl; first [by intros [= ?]%elem_of_singleton | by vm_compute].
Defined.

(** ** The pool as a list of objects *)

Lemma pool_wf_framed ai ai' : framed ai ai' → pool_wf ai → pool_wf ai'.
Proof. unfold pool_wf. by intros (_ & -> & ->). Qed.

Lemma pool_wf_sublist ai (k : list ref) :
  k `sublist_of` knowledge ai → pool_wf ai → pool_wf (with_knowledge ai k).
Proof.
  unfold pool_wf. cbn [knowledge store with_knowledge]. intros Hk [Hnd Hlive]. split.
  - by eapply sublist_NoDup.
  - rewrite !Forall_forall in *. intros r Hr. apply Hlive. by eapply elem_of_sublist.
Qed.

Lemma pool_wf_observe ai c count ai' new_sentence :
  pool_wf ai → observe ai c count = Ok (ai', new_sentence) → pool_wf ai'.
Proof.
  intros [Hnd Hlive]. rewrite observe_spec. intros [= <- _].
  unfold pool_wf. cbn [knowledge store]. rewrite Forall_forall in Hlive. split.
  - apply NoDup_app. split_and!; [done | | apply NoDup_singleton].
    intros r Hr ->%list_elem_of_singleton. apply Hlive in Hr. lia.
  - rewrite length_app, length_update_all. simpl. apply Forall_app. split.
    + apply Forall_forall. intros r Hr. apply Hlive in Hr. lia.
    + apply Forall_singleton. lia.
Qed.

Lemma pool_wf_ingest ai c count ai' :
  pool_wf ai → ingest ai c count = Ok ai' → pool_wf ai'.
Proof.
  intros Hwf (ai0 & new_sentence & k & Hobs & Hk & ->)%ingest_inv.
  apply remove_empty_from_keeps in Hk as [Hk _].
  apply pool_wf_sublist; [done |].
  eapply pool_wf_framed; [apply framed_foldl_conclude |].
  eapply pool_wf_framed; [apply framed_conclude_new |].
  by eapply pool_wf_observe.
Qed.

Lemma subset_rule_keeps_fresh h r1 r2 acc :
  fresh_refs h acc → fresh_refs h (subset_rule r1 r2 acc).
Proof.
  intros (Hlen & Hall & Hnd). destruct acc as [h' add]. unfold subset_rule.
  destruct (negb _); [| done]. case_decide; [| done].
  unfold fresh_refs in *. cbn [fst snd] in *. rewrite length_app. simpl.
  rewrite Forall_forall in Hall. split_and!.
  - lia.
  - apply Forall_app. split; [| apply Forall_singleton; lia].
    apply Forall_forall. intros d Hd. apply Hall in Hd. lia.
  - apply NoDup_app. split_and!; [done | | apply NoDup_singleton].
    intros d Hd ->%list_elem_of_singleton. apply Hall in Hd. lia.
Qed.

Lemma resolve_fresh (h : list Sentence.t) (k : list ref) : fresh_refs h (resolve h k).
Proof.
  unfold resolve.
  apply (foldl_preserves _ (fresh_refs h) (λ _, True)); [| by apply Forall_forall |].
  - intros acc r1 _ Hacc.
    apply (foldl_preserves _ (fresh_refs h) (λ _, True)); [| by apply Forall_forall | done].
    intros acc' r2 _. apply subset_rule_keeps_fresh.
  - unfold fresh_refs. cbn [fst snd]. split_and!; [done | constructor | constructor].
Qed.

Lemma pool_wf_add_knowledge ai c count ai' :
  pool_wf ai → add_knowledge ai c count = Ok ai' → pool_wf ai'.
Proof.
  intros Hwf (ai1 & Hing & Hdig)%add_knowledge_inv.
  eapply pool_wf_ingest in Hing as [Hnd Hlive]; [| done].
  apply digest_inv in Hdig as (k1 & additional & Hk1 & _ & ->).
  eapply pool_wf_framed; [apply framed_foldl_conclude |].
  apply remove_empty_from_keeps in Hk1 as [Hk1 _].
  cbn [store knowledge with_store] in Hk1.
  destruct (resolve_fresh (store ai1) (knowledge ai1)) as (Hlen & Hfresh & Hndr).
  destruct (add_new_appends (resolve (store ai1) (knowledge ai1)).1 (knowledge ai1)
              (resolve (store ai1) (knowledge ai1)).2) as (app & Happ & Hsub & _).
  rewrite Happ in Hk1. rewrite Forall_forall in Hlive, Hfresh.
  unfold pool_wf. cbn [knowledge store with_knowledge with_store]. split.
  - refine (sublist_NoDup _ _ _ Hk1).
    apply NoDup_app. split_and!; [done | | by apply (sublist_NoDup _ _ Hndr)].
    intros r Hr Hr'. apply Hlive in Hr.
    eapply elem_of_sublist in Hr'; [| done]. apply Hfresh in Hr'. lia.
  - apply Forall_forall. intros r Hr. eapply elem_of_sublist in Hr; [| done].
    apply elem_of_app in Hr as [Hr | Hr].
    + apply Hlive in Hr. lia.
    + eapply elem_of_sublist in Hr; [| done]. apply Hfresh in Hr. lia.
Qed.

Lemma pool_wf_replay (obs : list (cell * Z)) (ai : MinesweeperAI) :
  pool_wf ai → ∃ ai', replay ai obs = Ok ai' ∧ pool_wf ai'.
Proof.
  revert ai. induction obs as [| [c count] obs IH]; intros ai Hai.
  - by exists ai.
  - destruct (add_knowledge_Ok ai c count) as [ai1 H1].
    destruct (IH ai1) as (ai' & Hr & Hs); [by eapply pool_wf_add_knowledge |].
    exists ai'. split; [| done]. unfold replay in *. simpl. by rewrite H1.
Qed.

(** X16. After any sequence of [add_knowledge] calls on a fresh knowledge
    base, the pool lists no sentence object twice and every entry of the
    pool is an object that exists. *)
Theorem pool_lists_distinct_objects (h w : Z) (obs : list (cell * Z)) :
  ∃ ai, replay (__init__ h w) obs = Ok ai
        ∧ NoDup (knowledge ai)
        ∧ Forall (λ r, r < length (store ai)) (knowledge ai).
Proof. apply pool_wf_replay. split; constructor. Qed.

(** * The new sentence of a call *)

(** [add_knowledge] is the first phase followed by the rest. *)
Lemma add_knowledge_after_observe ai c count :
  add_knowledge ai c count
  = '(ai1, new_sentence) ← observe ai c count; after_observe ai1 new_sentence.
Proof.
  unfold add_knowledge, ingest, after_observe.
  destruct (observe ai c count) as [[ai1 new_sentence] |]; [| done].
  cbn [mbind result_bind].
  by destruct (remove_empty _ _).
Qed.

Lemma size_add_new (X : gset cell) (x : cell) : x ∉ X → size (X ∪ {[x]}) = S (size X).
Proof. intros Hx. rewrite size_union, size_singleton by set_solver. lia. Qed.

Lemma tracks_mark_safe s0 (n : ref) ai x : tracks s0 n ai → tracks s0 n (mark_safe ai x).
Proof.
  intros (Hlt & Hpool & Hcells & Hcount). unfold tracks.
  cbn [mark_safe knowledge store safes mines with_store with_safes].
  rewrite length_update_all.
  assert (Hobj : deref (update_all Sentence.mark_safe x (knowledge ai) (store ai)) n
                 = Sentence.mark_safe (deref (store ai) n) x).
  { rewrite deref_update_all; [| intros s; apply mark_safe_idemp | done].
    case_decide as Hin; [done |]. destruct Hpool as [? | Hempty]; [done |].
    unfold Sentence.mark_safe. rewrite decide_False; [done |]. rewrite Hempty. set_solver. }
  rewrite Hobj, mark_safe_cells, mark_safe_count. split_and!.
  - done.
  - destruct Hpool as [? | Hempty]; [by left | right]. rewrite Hempty. set_solver.
  - rewrite Hcells. set_solver.
  - lia.
  - assert (size (Sentence.cells s0 ∩ (mines ai ∖ (safes ai ∪ {[x]})))
            ≤ size (Sentence.cells s0 ∩ (mines ai ∖ safes ai)))
      by (apply subseteq_size; set_solver).
    lia.
Qed.

Lemma tracks_mark_mine s0 (n : ref) ai x : tracks s0 n ai → tracks s0 n (mark_mine ai x).
Proof.
  intros (Hlt & Hpool & Hcells & Hcount). unfold tracks.
  cbn [mark_mine knowledge store safes mines with_store with_mines].
  rewrite length_update_all.
  assert (Hobj : deref (update_all Sentence.mark_mine x (knowledge ai) (store ai)) n
                 = Sentence.mark_mine (deref (store ai) n) x).
  { rewrite deref_update_all; [| intros s; apply mark_mine_idemp | done].
    case_decide as Hin; [done |]. destruct Hpool as [? | Hempty]; [done |].
    unfold Sentence.mark_mine. rewrite decide_False; [done |]. rewrite Hempty. set_solver. }
  rewrite Hobj, mark_mine_cells, mark_mine_count.
  split; [done |]. split; [| split].
  - destruct Hpool as [? | Hempty]; [by left | right]. rewrite Hempty. set_solver.
  - rewrite Hcells. set_solver.
  - case_decide as Hx.
    + rewrite Hcells in Hx.
      assert (Sentence.cells s0 ∩ (mines ai ∪ {[x]})
              = Sentence.cells s0 ∩ mines ai ∪ {[x]}) as -> by set_solver.
      assert (Sentence.cells s0 ∩ ((mines ai ∪ {[x]}) ∖ safes ai)
              = Sentence.cells s0 ∩ (mines ai ∖ safes ai) ∪ {[x]}) as -> by set_solver.
      rewrite !size_add_new by set_solver. lia.
    + assert (size (Sentence.cells s0 ∩ mines ai)
              ≤ size (Sentence.cells s0 ∩ (mines ai ∪ {[x]})))
        by (apply subseteq_size; set_solver).
      assert (Sentence.cells s0 ∩ ((mines ai ∪ {[x]}) ∖ safes ai)
              = Sentence.cells s0 ∩ (mines ai ∖ safes ai)) as ->.
      { rewrite Hcells in Hx. apply set_eq. intros y.
        destruct (decide (y = x)) as [-> | ?]; [| set_solver].
        destruct (decide (x ∈ mines ai)); set_solver. }
      lia.
Qed.

Lemma tracks_conclude s0 (n : ref) ai r : tracks s0 n ai → tracks s0 n (conclude ai r).
Proof.
  intros Ht.
  destruct (conclude_cases ai r) as [[_ ->] | [(_ & _ & ->) | (_ & _ & ->)]]; [| | done].
  - apply (foldl_preserves mark_safe (tracks s0 n) (λ _, True));
      [intros; by apply tracks_mark_safe | by apply Forall_forall | done].
  - apply (foldl_preserves mark_mine (tracks s0 n) (λ _, True));
      [intros; by apply tracks_mark_mine | by apply Forall_forall | done].
Qed.

Lemma tracks_conclude_new s0 (n : ref) ai r :
  tracks s0 n ai → tracks s0 n (conclude_new ai r).
Proof.
  intros Ht.
  destruct (conclude_new_cases ai r) as [[_ ->] | [(_ & _ & ->) | (_ & _ & ->)]]; [| | done].
  - apply (foldl_preserves mark_safe (tracks s0 n) (λ _, True));
      [intros; by apply tracks_mark_safe | by apply Forall_forall | done].
  - apply (foldl_preserves mark_mine (tracks s0 n) (λ _, True));
      [intros; by apply tracks_mark_mine | by apply Forall_forall | done].
Qed.

Lemma tracks_foldl_conclude s0 (n : ref) ai l :
  tracks s0 n ai → tracks s0 n (foldl conclude ai l).
Proof.
  apply (foldl_preserves conclude (tracks s0 n) (λ _, True)).
  - intros a x _. apply tracks_conclude.
  - by apply Forall_forall.
Qed.

Lemma tracks_remove_empty s0 (n : ref) ai k :
  tracks s0 n ai → remove_empty (store ai) (knowledge ai) = Ok k →
  tracks s0 n (with_knowledge ai k).
Proof.
  intros (Hlt & Hpool & Hcells & Hcount) [_ Hkeep]%remove_empty_from_inv.
  unfold tracks. cbn [knowledge store safes mines with_knowledge].
  split; [done |]. split; [| done].
  destruct Hpool as [Hin | ?]; [| by right].
  destruct (decide (Sentence.cells (deref (store ai) n) = ∅)); [by right | left].
  by apply Hkeep.
Qed.

Lemma tracks_extend s0 (n : ref) ai t k :
  tracks s0 n ai → knowledge ai ⊆ k →
  tracks s0 n (with_knowledge (with_store ai (store ai ++ t)) k).
Proof.
  intros (Hlt & Hpool & Hcells & Hcount) Hk.
  unfold tracks. cbn [knowledge store safes mines with_knowledge with_store].
  rewrite deref_app by done. rewrite length_app.
  split; [lia |]. split; [| done].
  destruct Hpool as [Hin | ?]; [left; by apply Hk | by right].
Qed.

Lemma resolve_extends (h : list Sentence.t) (k : list ref) : store_extends h (resolve h k).
Proof.
  unfold resolve.
  apply (foldl_preserves _ (store_extends h) (λ _, True)); [| by apply Forall_forall |].
  - intros acc r1 _ Hacc.
    apply (foldl_preserves _ (store_extends h) (λ _, True)); [| by apply Forall_forall | done].
    intros acc' r2 _. apply subset_rule_keeps_extends.
  - exists []. by rewrite app_nil_r.
Qed.

Lemma tracks_after_observe s0 (n : ref) ai new_sentence ai' :
  tracks s0 n ai → after_observe ai new_sentence = Ok ai' → tracks s0 n ai'.
Proof.
  intros Ht. unfold after_observe.
  intros (k & Hk & Hdig)%bind_Ok.
  apply tracks_conclude_new with (r := new_sentence) in Ht.
  apply tracks_foldl_conclude with (l := knowledge (conclude_new ai new_sentence)) in Ht.
  eapply tracks_remove_empty in Ht; [| exact Hk].
  set (ai1 := with_knowledge _ k) in *.
  destruct (resolve_extends (store ai1) (knowledge ai1)) as [t Ht1].
  destruct (resolve (store ai1) (knowledge ai1)) as [h additional]. cbn [fst] in Ht1.
  subst h.
  apply digest_inv in Hdig as (k1 & additional' & Hk1 & _ & ->).
  apply tracks_foldl_conclude.
  cbn [store knowledge with_store] in Hk1.
  destruct (add_new_appends (store ai1 ++ t) (knowledge ai1) additional)
    as (app & Happ & _).
  apply (tracks_extend _ _ _ t (knowledge ai1 ++ app)) in Ht; [| set_solver].
  rewrite <- Happ in Ht.
  eapply tracks_remove_empty in Ht; [| exact Hk1]. exact Ht.
Qed.

Lemma tracks_observe ai c count ai1 (new_sentence : ref) :
  observe ai c count = Ok (ai1, new_sentence) →
  tracks (deref (store ai1) new_sentence) new_sentence ai1.
Proof.
  rewrite observe_spec. intros [= <- <-]. unfold tracks. cbn [knowledge store safes mines].
  rewrite deref_snoc, length_update_all, decide_True by done.
  rewrite length_app, length_update_all. cbn [Sentence.cells Sentence.count length].
  assert (c ∉ in_grid (grid (height ai) (width ai)) (around c)).
  { rewrite elem_of_in_grid. intros [? _]. by eapply around_irrefl. }
  split; [lia |]. split; [left; set_solver |]. split; [set_solver |]. split.
  - assert (size ((in_grid (grid (height ai) (width ai)) (around c)
                   ∖ (moves_made ai ∪ safes ai ∪ mines ai)) ∩ mines ai) = 0) as ->
      by (apply size_empty_iff; set_solver).
    lia.
  - assert (size ((in_grid (grid (height ai) (width ai)) (around c)
                   ∖ (moves_made ai ∪ safes ai ∪ mines ai))
                  ∩ (mines ai ∖ (safes ai ∪ {[c]}))) = 0) as ->
      by (apply size_empty_iff; set_solver).
    lia.
Qed.

(** C8. The sentence [add_knowledge] appends.  A call of [add_knowledge]
    returns, and it is lines 197-227 followed by lines 228-309: the first
    part appends to the pool a new sentence object whose cells are the
    in-bounds cells at Chebyshev distance 1 from the observed cell that are
    in none of [moves_made], [safes], [mines], and whose count is the
    observed count minus the number of those neighbours that are known
    mines; the second part takes the state from there to the one the call
    returns.  When the call returns, the object is still in the store; its
    cells are the ones it was built with, less those marked safe or mine in
    the meantime, and its count has gone down by one for every one of its
    cells that ended up in [mines] (a cell that ended up both in [safes] and
    in [mines] may or may not have counted). *)
Theorem new_sentence_spec (ai : MinesweeperAI) (c : cell) (count : Z) :
  ∃ ai1 new_sentence neighbors ai',
    observe ai c count = Ok (ai1, new_sentence)
    ∧ after_observe ai1 new_sentence = Ok ai'
    ∧ add_knowledge ai c count = Ok ai'
    ∧ new_sentence = length (store ai)
    ∧ knowledge ai1 = knowledge ai ++ [new_sentence]
    ∧ (∀ x, x ∈ neighbors ↔ in_bounds ai x ∧ chebyshev x c = 1%Z)
    ∧ Sentence.cells (deref (store ai1) new_sentence)
      = neighbors ∖ (moves_made ai ∪ safes ai ∪ mines ai)
    ∧ Sentence.count (deref (store ai1) new_sentence)
      = (count - Z.of_nat (size (neighbors ∩ mines ai)))%Z
    ∧ new_sentence < length (store ai')
    ∧ Sentence.cells (deref (store ai') new_sentence)
      = Sentence.cells (deref (store ai1) new_sentence) ∖ (safes ai' ∪ mines ai')
    ∧ (Sentence.count (deref (store ai1) new_sentence)
       - Z.of_nat (size (Sentence.cells (deref (store ai1) new_sentence) ∩ mines ai'))
       ≤ Sentence.count (deref (store ai') new_sentence)
       ≤ Sentence.count (deref (store ai1) new_sentence)
         - Z.of_nat (size (Sentence.cells (deref (store ai1) new_sentence)
                           ∩ (mines ai' ∖ safes ai'))))%Z.
Proof.
  destruct (add_knowledge_Ok ai c count) as [ai' Hadd].
  pose proof Hadd as Hafter. rewrite add_knowledge_after_observe in Hafter.
  apply bind_Ok in Hafter as ([ai1 new_sentence] & Hobs & Hafter).
  pose proof (tracks_after_observe _ _ _ _ _ (tracks_observe _ _ _ _ _ Hobs) Hafter)
    as (Hlt & _ & Hcells & Hcount).
  exists ai1, new_sentence, (in_grid (grid (height ai) (width ai)) (around c)), ai'.
  split_and!; try done.
  - rewrite observe_spec in Hobs. by injection Hobs.
  - rewrite observe_spec in Hobs. by injection Hobs as <- <-.
  - intros x. apply elem_of_neighbors.
  - erewrite observe_new_sentence by done. done.
  - erewrite observe_new_sentence by done. done.
  - lia.
  - lia.
Qed.

(** * The board: class [Minesweeper] *)

(** ** List indexing *)

Lemma getitem_lookup {A} (l : list A) (n : nat) (x : A) :
  l !! n = Some x → getitem l (Z.of_nat n) = Returned x.
Proof.
  intros H. pose proof (lookup_lt_Some _ _ _ H) as Hlt.
  unfold getitem. cbv zeta. destruct (decide (Z.of_nat n < 0)%Z); [lia |].
  rewrite decide_True by lia. by rewrite Nat2Z.id, H.
Qed.

Lemma setitem_insert {A} (l : list A) (i : Z) (x : A) :
  (0 ≤ i < Z.of_nat (length l))%Z → setitem l i x = Returned (<[Z.to_nat i := x]> l).
Proof.
  intros H. unfold setitem. cbv zeta. destruct (decide (i < 0)%Z); [lia |].
  by rewrite decide_True by lia.
Qed.

(** ** The constructor *)

(** The two loops build [height] rows of [width] entries [False]. *)
Lemma empty_board_replicate (h w : Z) :
  Minesweeper.empty_board h w = replicate (Z.to_nat h) (replicate (Z.to_nat w) false).
Proof.
  assert (Hgen : ∀ {A B} (x : A) (l : list B) (acc : list A),
    foldl (λ acc _, acc ++ [x]) acc l = acc ++ replicate (length l) x).
  { intros A B x l. induction l as [| y l IH]; intros acc; simpl.
    - by rewrite app_nil_r.
    - rewrite IH, <- app_assoc. done. }
  unfold Minesweeper.empty_board, range. rewrite !Hgen. simpl.
  by rewrite !length_seqZ, !Z.sub_0_r.
Qed.

Lemma place_mines_eq h w wanted draws m b :
  Minesweeper.place_mines h w wanted draws m b
  = if decide (Z.of_nat (size m) ≠ wanted) then
      i ← randrange h (fst <$> head draws);
      j ← randrange w (snd <$> head draws);
      match draws with
      | [] => Unfinished
      | _ :: draws' =>
          row ← getitem b i;
          is_set ← getitem row j;
          if negb is_set then
            row' ← setitem row j true;
            board' ← setitem b i row';
            Minesweeper.place_mines h w wanted draws' (m ∪ {[(i, j)]}) board'
          else Minesweeper.place_mines h w wanted draws' m b
      end
    else Returned (m, b).
Proof. by destruct draws. Qed.

(** With a mine still to place, an empty range makes the iteration raise:
    at the first [randrange] when there is no row, whatever the supply of
    numbers, and at the second when there is a row but no column. *)
Lemma place_mines_empty_range h w wanted draws m b :
  Z.of_nat (size m) ≠ wanted →
  ((h ≤ 0)%Z → Minesweeper.place_mines h w wanted draws m b = Raised EmptyRange)
  ∧ ((0 < h)%Z → (w ≤ 0)%Z →
     ∀ d, Minesweeper.place_mines h w wanted (d :: draws) m b = Raised EmptyRange).
Proof.
  intros Hsz. split.
  - intros Hh. rewrite place_mines_eq, decide_True by done. unfold randrange.
    by rewrite (decide_False (P := (0 < h)%Z)) by lia.
  - intros Hh Hw [x y]. rewrite place_mines_eq, decide_True by done. unfold randrange.
    rewrite (decide_True (P := (0 < h)%Z)) by done.
    by rewrite (decide_False (P := (0 < w)%Z)) by lia.
Qed.

(** On a consistent board an in-range cell is read without an error, and
    the entry says whether the cell is in [mines]. *)
Lemma wf_lookup (g : Minesweeper.t) (i j : Z) :
  Minesweeper.wf g →
  (0 ≤ i < Minesweeper.height g)%Z → (0 ≤ j < Minesweeper.width g)%Z →
  ∃ row, Minesweeper.board g !! Z.to_nat i = Some row
         ∧ length row = Z.to_nat (Minesweeper.width g)
         ∧ getitem (Minesweeper.board g) i = Returned row
         ∧ getitem row j = Returned (bool_decide ((i, j) ∈ Minesweeper.mines g)).
Proof.
  intros (Hlen & Hrows & _ & Hagree) Hi Hj.
  destruct (lookup_lt_is_Some_2 (Minesweeper.board g) (Z.to_nat i)) as [row Hrow]; [lia |].
  assert (Hlr : length row = Z.to_nat (Minesweeper.width g)).
  { rewrite Forall_forall in Hrows. apply Hrows. by eapply list_elem_of_lookup_2. }
  destruct (lookup_lt_is_Some_2 row (Z.to_nat j)) as [s Hs]; [lia |].
  exists row. split_and!; [done | done | |].
  - rewrite <- (Z2Nat.id i) by lia. by apply getitem_lookup.
  - rewrite <- (Z2Nat.id j) at 1 by lia. rewrite (getitem_lookup _ _ _ Hs). f_equal.
    specialize (Hagree (Z.to_nat i) (Z.to_nat j)). rewrite !Z2Nat.id in Hagree by lia.
    destruct s.
    + rewrite bool_decide_eq_true_2; [done |]. apply Hagree. by exists row.
    + rewrite bool_decide_eq_false_2; [done |]. intros (row' & Hr' & Hs')%Hagree.
      congruence.
Qed.

(** Setting one entry and adding the cell to [mines] keeps the board
    consistent. *)
Lemma wf_set h w m b mf (i j : Z) (row : list bool) :
  Minesweeper.wf (Minesweeper.mk h w m b mf) →
  (0 ≤ i < h)%Z → (0 ≤ j < w)%Z → b !! Z.to_nat i = Some row →
  Minesweeper.wf
    (Minesweeper.mk h w (m ∪ {[(i, j)]})
       (<[Z.to_nat i := <[Z.to_nat j := true]> row]> b) mf).
Proof.
  intros (Hlen & Hrows & Hsub & Hagree) Hi Hj Hrow.
  cbn [Minesweeper.mines Minesweeper.width Minesweeper.height Minesweeper.board] in *.
  assert (Hlr : length row = Z.to_nat w).
  { rewrite Forall_forall in Hrows. apply Hrows. by eapply list_elem_of_lookup_2. }
  split_and!; cbn [Minesweeper.mines Minesweeper.width Minesweeper.height Minesweeper.board].
  - by rewrite length_insert.
  - apply Forall_insert; [done |]. by rewrite length_insert.
  - intros c [Hc | ->%elem_of_singleton]%elem_of_union; [by apply Hsub |].
    by apply elem_of_grid.
  - intros i0 j0. rewrite elem_of_union, elem_of_singleton, Hagree.
    destruct (decide (i0 = Z.to_nat i)) as [-> | Hne].
    + rewrite list_lookup_insert_eq by lia.
      destruct (decide (j0 = Z.to_nat j)) as [-> | Hnj].
      * split; [intros _ | intros _; right; f_equal; lia].
        eexists. split; [done |]. apply list_lookup_insert_eq. lia.
      * split.
        -- intros [(row0 & Hr0 & Hs0) | [= ? ?]]; [| lia].
           eexists. split; [done |]. rewrite list_lookup_insert_ne by done. congruence.
        -- intros (row0 & [= <-] & Hs0). left. exists row. split; [done |].
           by rewrite list_lookup_insert_ne in Hs0.
    + rewrite list_lookup_insert_ne by done.
      split; [intros [H | [= ? ?]]; [done | lia] | by left].
Qed.

(** One iteration of the placement loop on a consistent board: the cell
    drawn is looked up without an error, and set when it was empty. *)
Lemma place_mines_step h w wanted x y draws m b mf :
  Minesweeper.wf (Minesweeper.mk h w m b mf) →
  Z.of_nat (size m) ≠ wanted → (0 < h)%Z → (0 < w)%Z →
  let i := (Z.of_nat x `mod` h)%Z in
  let j := (Z.of_nat y `mod` w)%Z in
  (0 ≤ i < h)%Z ∧ (0 ≤ j < w)%Z
  ∧ (((i, j) ∈ m
      ∧ Minesweeper.place_mines h w wanted ((x, y) :: draws) m b
        = Minesweeper.place_mines h w wanted draws m b)
     ∨ (((i, j) ∉ m)
        ∧ ∃ b', Minesweeper.wf (Minesweeper.mk h w (m ∪ {[(i, j)]}) b' mf)
                ∧ Minesweeper.place_mines h w wanted ((x, y) :: draws) m b
                  = Minesweeper.place_mines h w wanted draws (m ∪ {[(i, j)]}) b')).
Proof.
  intros Hwf Hsz Hh Hw i j.
  assert (Hi : (0 ≤ i < h)%Z) by (by apply Z.mod_pos_bound).
  assert (Hj : (0 ≤ j < w)%Z) by (by apply Z.mod_pos_bound).
  split; [done |]. split; [done |].
  rewrite place_mines_eq. rewrite decide_True by done.
  unfold randrange. rewrite !decide_True by done.
  cbn [head fmap option_fmap option_map fst snd mbind outcome_bind]. fold i j.
  destruct (wf_lookup _ i j Hwf Hi Hj) as (row & Hrow & Hlr & Hgr & Hgs).
  cbn [Minesweeper.mines Minesweeper.width Minesweeper.height Minesweeper.board] in *.
  rewrite Hgr. cbn [mbind outcome_bind]. rewrite Hgs. cbn [mbind outcome_bind].
  case_bool_decide as Hin; cbn [negb]; [by left | right]. split; [done |].
  rewrite setitem_insert by lia. cbn [mbind outcome_bind].
  destruct Hwf as (Hlen & Hwf').
  cbn [Minesweeper.mines Minesweeper.width Minesweeper.height Minesweeper.board] in *.
  rewrite setitem_insert by lia. cbn [mbind outcome_bind].
  eexists. split; [| done]. apply wf_set; done.
Qed.

Lemma place_mines_wf h w wanted draws m b mf m' b' :
  Minesweeper.wf (Minesweeper.mk h w m b mf) →
  Minesweeper.place_mines h w wanted draws m b = Returned (m', b') →
  Minesweeper.wf (Minesweeper.mk h w m' b' mf) ∧ Z.of_nat (size m') = wanted ∧ m ⊆ m'.
Proof.
  revert m b. induction draws as [| [x y] draws IH]; intros m b Hwf.
  - rewrite place_mines_eq. case_decide as Hsz; [| intros [= <- <-]; done].
    unfold randrange. by repeat case_decide.
  - destruct (decide (Z.of_nat (size m) = wanted)) as [Hsz | Hsz].
    { rewrite place_mines_eq, decide_False by tauto. intros [= <- <-]. done. }
    destruct (decide (0 < h)%Z) as [Hh |].
    2:{ rewrite (proj1 (place_mines_empty_range h w wanted _ m b Hsz)) by lia. done. }
    destruct (decide (0 < w)%Z) as [Hw |].
    2:{ rewrite (proj2 (place_mines_empty_range h w wanted _ m b Hsz)) by lia. done. }
    destruct (place_mines_step h w wanted x y draws m b mf Hwf Hsz Hh Hw)
      as (_ & _ & [[_ ->] | (_ & b1 & Hwf1 & ->)]); [by apply IH |].
    intros Hrec. apply IH in Hrec; [set_solver | done].
Qed.

Lemma wf_empty h w mf :
  Minesweeper.wf (Minesweeper.mk h w ∅ (Minesweeper.empty_board h w) mf).
Proof.
  rewrite empty_board_replicate. split_and!; cbn.
  - apply length_replicate.
  - apply Forall_replicate, length_replicate.
  - set_solver.
  - intros i j. split; [set_solver |].
    intros (row & [-> _]%lookup_replicate & [? _]%lookup_replicate). done.
Qed.

(** ** Counting the mines around a cell *)

(** A loop whose body adds [f x] to the counter returns the sum. *)
Lemma for_each_o_sum {B} (f : B → Z) (body : Z → B → outcome Z) (l : list B) (count : Z) :
  (∀ count x, x ∈ l → body count x = Returned (count + f x)%Z) →
  for_each_o body count l = Returned (count + foldr (λ x s, f x + s) 0 l)%Z.
Proof.
  revert count. induction l as [| x l IH]; intros count Hbody; simpl.
  - by rewrite Z.add_0_r.
  - rewrite Hbody by constructor. cbn [mbind outcome_bind].
    rewrite IH by (intros; apply Hbody; by constructor). f_equal. lia.
Qed.

Lemma sum_indicator {B} (P : B → Prop) `{∀ x, Decision (P x)} (l : list B) :
  foldr (λ x s, (if decide (P x) then 1 else 0) + s)%Z 0%Z l
  = Z.of_nat (length (filter P l)).
Proof.
  induction l as [| x l IH]; [done |]. simpl. rewrite IH, filter_cons.
  case_decide; simpl; lia.
Qed.

Lemma look_wf (g : Minesweeper.t) (c : cell) (count : Z) (x : cell) :
  Minesweeper.wf g →
  Minesweeper.look g c count x
  = Returned (count + if decide (x ≠ c ∧ x ∈ Minesweeper.mines g) then 1 else 0)%Z.
Proof.
  intros Hwf. destruct x as [i j]. unfold Minesweeper.look.
  destruct (decide ((i, j) = c)) as [Heq | Hne].
  { rewrite decide_False by tauto. by rewrite Z.add_0_r. }
  destruct (decide ((0 ≤ i < Minesweeper.height g)%Z ∧ (0 ≤ j < Minesweeper.width g)%Z))
    as [[Hi Hj] | Hout].
  - destruct (wf_lookup g i j Hwf Hi Hj) as (row & _ & _ & -> & Hs).
    cbn [mbind outcome_bind]. rewrite Hs. cbn [mbind outcome_bind].
    case_bool_decide.
    + by rewrite decide_True.
    + rewrite decide_False by tauto. by rewrite Z.add_0_r.
  - rewrite decide_False; [by rewrite Z.add_0_r |].
    intros [_ Hin]. destruct Hwf as (_ & _ & Hsub & _).
    apply Hsub, elem_of_grid in Hin. tauto.
Qed.

Lemma length_filter_fmap {A B} (P : B → Prop) `{∀ x, Decision (P x)} (f : A → B)
    (l : list A) :
  length (filter P (f <$> l)) = length (filter (λ x, P (f x)) l).
Proof.
  induction l as [| x l IH]; [done |]. rewrite fmap_cons, !filter_cons.
  case_decide; simpl; by rewrite IH.
Qed.

(** The cells the two loops of [nearby_mines] visit: the 3 x 3 window
    around [c]. *)
Lemma elem_of_window (c x : cell) :
  x ∈ (i ← range (c.1 - 1) (c.1 + 2); (λ j, (i, j)) <$> range (c.2 - 1) (c.2 + 2))
  ↔ (chebyshev x c ≤ 1)%Z.
Proof.
  rewrite list_elem_of_bind. unfold range, chebyshev. destruct x as [a b], c as [i j]. simpl.
  split.
  - intros (k & (l & [= -> ->] & Hl%elem_of_seqZ)%list_elem_of_fmap & Hk%elem_of_seqZ). lia.
  - intros H. exists a. rewrite list_elem_of_fmap, elem_of_seqZ. split; [| lia].
    exists b. rewrite elem_of_seqZ. split; [done | lia].
Qed.

Lemma NoDup_cells (rows cols : list Z) :
  NoDup rows → NoDup cols → NoDup (i ← rows; (λ j, (i, j)) <$> cols).
Proof.
  intros Hr Hc. apply NoDup_bind; [| | done].
  - intros i1 i2 y _ _ (? & -> & _)%list_elem_of_fmap (? & [= -> _] & _)%list_elem_of_fmap.
    done.
  - intros i _. apply NoDup_fmap_2; [| done]. by intros ?? [= ->].
Qed.

Lemma nearby_mines_count (g : Minesweeper.t) (c : cell) :
  Minesweeper.wf g →
  Minesweeper.nearby_mines g c
  = Returned (Z.of_nat (size (neighbors (Minesweeper.height g) (Minesweeper.width g) c
                              ∩ Minesweeper.mines g))).
Proof.
  intros Hwf. unfold Minesweeper.nearby_mines.
  set (P := λ x : cell, x ≠ c ∧ x ∈ Minesweeper.mines g).
  rewrite (for_each_o_sum
             (λ i, Z.of_nat (length (filter (λ j, P (i, j)) (range (c.2 - 1) (c.2 + 2)))))).
  2:{ intros count i _.
      rewrite (for_each_o_sum (λ j, if decide (P (i, j)) then 1 else 0)%Z).
      - by rewrite (sum_indicator (λ j, P (i, j))).
      - intros count' j _. by apply look_wf. }
  rewrite Z.add_0_l. f_equal.
  assert (Hflat : ∀ (rows cols : list Z),
    foldr (λ i s, Z.of_nat (length (filter (λ j, P (i, j)) cols)) + s)%Z 0%Z rows
    = Z.of_nat (length (filter P (i ← rows; (λ j, (i, j)) <$> cols)))).
  { intros rows cols. induction rows as [| i rows IH]; [done |].
    cbn [foldr]. rewrite IH, bind_cons, filter_app, length_app, length_filter_fmap.
    by rewrite Nat2Z.inj_add. }
  rewrite Hflat. f_equal.
  rewrite <- (size_list_to_set (C := gset cell)) by (apply NoDup_filter, NoDup_cells; apply NoDup_seqZ).
  f_equal. apply set_eq. intros x.
  rewrite elem_of_list_to_set, list_elem_of_filter, elem_of_window, elem_of_intersection.
  unfold neighbors, P. rewrite elem_of_in_grid, elem_of_around.
  destruct Hwf as (_ & _ & Hsub & _).
  assert (x ≠ c ↔ chebyshev x c ≠ 0%Z).
  { unfold chebyshev. destruct x as [a b], c as [i j]. simpl. split.
    - intros Hne Hz. apply Hne. f_equal; lia.
    - intros Hz [= -> ->]. lia. }
  assert (0 ≤ chebyshev x c)%Z by (unfold chebyshev; lia).
  split.
  - intros [[Hne%H Hin] Hle]. split_and!; [lia | by apply Hsub | done].
  - intros [[Hd _] Hin]. split_and!; [| done | lia]. apply H. lia.
Qed.

(** ** What the constructor can raise, and which boards it can build *)

Lemma place_mines_raises h w wanted draws m b mf e :
  Minesweeper.wf (Minesweeper.mk h w m b mf) →
  Minesweeper.place_mines h w wanted draws m b = Raised e →
  e = EmptyRange ∧ (h ≤ 0 ∨ w ≤ 0)%Z ∧ Z.of_nat (size m) ≠ wanted.
Proof.
  revert m b. induction draws as [| [x y] draws IH]; intros m b Hwf.
  - rewrite place_mines_eq. case_decide as Hsz; [| done].
    unfold randrange. destruct (decide (0 < h)%Z); [by case_decide |].
    intros [= <-]. split_and!; [done | lia | done].
  - destruct (decide (Z.of_nat (size m) = wanted)) as [Hsz | Hsz].
    { by rewrite place_mines_eq, decide_False by tauto. }
    destruct (decide (0 < h)%Z) as [Hh |].
    2:{ rewrite (proj1 (place_mines_empty_range h w wanted _ m b Hsz)) by lia.
        intros [= <-]. split_and!; [done | lia | done]. }
    destruct (decide (0 < w)%Z) as [Hw |].
    2:{ rewrite (proj2 (place_mines_empty_range h w wanted _ m b Hsz)) by lia.
        intros [= <-]. split_and!; [done | lia | done]. }
    destruct (place_mines_step h w wanted x y draws m b mf Hwf Hsz Hh Hw)
      as (_ & _ & [[_ ->] | (_ & b1 & Hwf1 & ->)]);
      intros Hrec; apply IH in Hrec; try done; lia.
Qed.

(** Drawing the cells of a duplicate-free list [l] of empty cells, one per
    iteration, places exactly these mines. *)
Lemma place_mines_reaches (h w : Z) (mf : gset cell) (l : list cell) (m : gset cell)
    (b : list (list bool)) :
  Minesweeper.wf (Minesweeper.mk h w m b mf) →
  NoDup l → Forall (λ c, c ∈ grid h w ∧ (c ∉ m)) l →
  ∃ b', Minesweeper.place_mines h w (Z.of_nat (size m + length l))
          ((λ c : cell, (Z.to_nat c.1, Z.to_nat c.2)) <$> l) m b
        = Returned (m ∪ list_to_set l, b').
Proof.
  revert m b. induction l as [| [i j] l IH]; intros m b Hwf Hnd Hall.
  - exists b. rewrite place_mines_eq, decide_False by (cbn [length]; lia).
    simpl. by rewrite (right_id_L ∅ (∪)).
  - apply NoDup_cons in Hnd as [Hnin Hnd]. apply Forall_cons in Hall as [[Hg Hm] Hall].
    apply elem_of_grid in Hg as [Hi Hj].
    assert (Hsz : Z.of_nat (size m) ≠ Z.of_nat (size m + length ((i, j) :: l)))
      by (cbn [length]; lia).
    destruct (place_mines_step h w _ (Z.to_nat i) (Z.to_nat j)
                ((λ c : cell, (Z.to_nat c.1, Z.to_nat c.2)) <$> l) m b mf Hwf Hsz)
      as (_ & _ & Hstep); [lia | lia |].
    rewrite !Z2Nat.id, !Z.mod_small in Hstep by lia.
    destruct Hstep as [[? _] | (_ & b1 & Hwf1 & Heq)]; [done |].
    destruct (IH (m ∪ {[(i, j)]}) b1 Hwf1 Hnd) as [b' Hb'].
    { eapply Forall_impl; [apply Forall_and; split; [exact Hall | ] |].
      - apply Forall_forall. intros c Hc. exact (Hc : c ∈ l).
      - simpl. intros c [[Hcg Hcm] Hcl]. split; [done |].
        intros [? | ->%elem_of_singleton]%elem_of_union; done. }
    exists b'. rewrite size_union, size_singleton in Hb' by set_solver.
    rewrite fmap_cons. cbn [fst snd]. etransitivity; [exact Heq |].
    replace (size m + length ((i, j) :: l)) with (size m + 1 + length l)
      by (by rewrite <- Nat.add_assoc).
    rewrite Hb'. do 2 f_equal. rewrite list_to_set_cons. set_solver.
Qed.

(** ** Reading a cell *)

(** Python indexing: an index in [[-n, n)] reads entry [i mod n], any other
    raises [IndexError]. *)
Lemma getitem_wraps {A} (l : list A) (i : Z) :
  getitem l i
  = if decide (- Z.of_nat (length l) ≤ i < Z.of_nat (length l))%Z
    then from_option Returned (Raised IndexError)
           (l !! Z.to_nat (i `mod` Z.of_nat (length l)))
    else Raised IndexError.
Proof.
  unfold getitem. cbv zeta. destruct (decide (i < 0)%Z) as [Hneg | Hpos].
  - destruct (decide (0 ≤ Z.of_nat (length l) + i < Z.of_nat (length l))%Z) as [Hr | Hr].
    + rewrite decide_True by lia. do 2 f_equal.
      rewrite <- (Z.mod_small (Z.of_nat (length l) + i) (Z.of_nat (length l))) at 1 by lia.
      replace (Z.of_nat (length l) + i)%Z with (i + 1 * Z.of_nat (length l))%Z by lia.
      by rewrite Z_mod_plus_full.
    + by rewrite decide_False by lia.
  - destruct (decide (0 ≤ i < Z.of_nat (length l))%Z) as [Hr | Hr].
    + rewrite decide_True by lia. by rewrite Z.mod_small by lia.
    + by rewrite decide_False by lia.
Qed.

Lemma is_mine_wf (g : Minesweeper.t) (i j : Z) :
  Minesweeper.wf g →
  Minesweeper.is_mine g (i, j)
  = if decide ((- Minesweeper.height g ≤ i < Minesweeper.height g)%Z
               ∧ (- Minesweeper.width g ≤ j < Minesweeper.width g)%Z)
    then Returned (bool_decide ((i `mod` Minesweeper.height g,
                                 j `mod` Minesweeper.width g)%Z ∈ Minesweeper.mines g))
    else Raised IndexError.
Proof.
  intros Hwf. unfold Minesweeper.is_mine. rewrite getitem_wraps.
  pose proof Hwf as (Hlen & Hrows & _).
  destruct (decide (- Z.of_nat (length (Minesweeper.board g)) ≤ i
                    < Z.of_nat (length (Minesweeper.board g)))%Z) as [Hi | Hi].
  - assert (Hh : (0 < Minesweeper.height g)%Z) by lia.
    assert (Hi' : (0 ≤ i `mod` Minesweeper.height g < Minesweeper.height g)%Z)
      by (by apply Z.mod_pos_bound).
    replace (Z.of_nat (length (Minesweeper.board g))) with (Minesweeper.height g) by lia.
    destruct (decide (0 < Minesweeper.width g)%Z) as [Hw | Hw].
    + destruct (wf_lookup g _ (j `mod` Minesweeper.width g) Hwf Hi')
        as (row & Hrow & Hlr & _ & Hs); [by apply Z.mod_pos_bound |].
      rewrite Hrow. cbn [from_option mbind outcome_bind].
      rewrite getitem_wraps. rewrite getitem_wraps in Hs.
      replace (Z.of_nat (length row)) with (Minesweeper.width g) in * by lia.
      rewrite Z.mod_mod in Hs by lia.
      rewrite decide_True in Hs by (pose proof (Z.mod_pos_bound j _ Hw); lia).
      destruct (decide (- Minesweeper.width g ≤ j < Minesweeper.width g)%Z) as [Hj | Hj].
      * rewrite decide_True by lia. done.
      * rewrite decide_False by tauto. done.
    + rewrite decide_False by lia.
      destruct (lookup_lt_is_Some_2 (Minesweeper.board g)
                  (Z.to_nat (i `mod` Minesweeper.height g))) as [row Hrow]; [lia |].
      rewrite Hrow. cbn [from_option mbind outcome_bind]. rewrite getitem_wraps.
      assert (length row = Z.to_nat (Minesweeper.width g)).
      { rewrite Forall_forall in Hrows. apply Hrows. by eapply list_elem_of_lookup_2. }
      by rewrite decide_False by lia.
  - rewrite decide_False; [done |].
    intros [? _]. destruct (decide (0 < Minesweeper.height g)%Z); lia.
Qed.

(** ** Sizes *)


Lemma size_around (c : cell) : size (around c) ≤ 8.
Proof.
  assert (H : ∀ (X : gset cell) (x : cell) (n : nat),
    size X ≤ n → size (X ∪ {[x]}) ≤ S n).
  { intros X x n HX. rewrite size_union_alt.
    assert (size ({[x]} ∖ X) ≤ size ({[x]} : gset cell))
      by (apply subseteq_size; set_solver).
    rewrite size_singleton in *. lia. }
  destruct c as [i j]. unfold around. do 7 apply H. by rewrite size_singleton.
Qed.

(** ** The board the constructor returns *)

Lemma board_init_wf (h w wanted : Z) (draws : list (nat * nat)) (g : Minesweeper.t) :
  Minesweeper.__init__ h w wanted draws = Returned g →
  Minesweeper.wf g
  ∧ Minesweeper.height g = h ∧ Minesweeper.width g = w
  ∧ Minesweeper.mines_found g = ∅
  ∧ Z.of_nat (size (Minesweeper.mines g)) = wanted.
Proof.
  unfold Minesweeper.__init__.
  destruct (Minesweeper.place_mines h w wanted draws ∅ (Minesweeper.empty_board h w))
    as [[m b] | |] eqn:Hp; [| done | done].
  intros [= <-]. apply (place_mines_wf _ _ _ _ _ _ ∅) in Hp as (Hwf & Hsz & _);
    [| apply wf_empty].
  done.
Qed.



(** X18. The only exception the constructor can raise is the one of
    [random.randrange] on an empty range, and only when a mine is requested
    on a board without rows or without columns: the indexing of [board] in
    the placement loop is never out of range.  With a mine requested, a
    board without rows makes the first [randrange] raise at once, on any
    supply of random numbers; a board with rows and without columns makes
    the second [randrange] raise, whatever number was drawn for the row. *)
Theorem board_init_raises (h w wanted : Z) (draws : list (nat * nat)) :
  (∀ e, Minesweeper.__init__ h w wanted draws = Raised e →
        e = EmptyRange ∧ wanted ≠ 0%Z ∧ (h ≤ 0 ∨ w ≤ 0)%Z)
  ∧ (wanted ≠ 0%Z → (h ≤ 0)%Z →
     Minesweeper.__init__ h w wanted draws = Raised EmptyRange)
  ∧ (wanted ≠ 0%Z → (0 < h)%Z → (w ≤ 0)%Z →
     ∀ d, Minesweeper.__init__ h w wanted (d :: draws) = Raised EmptyRange).
Proof.
  assert (Hempty : wanted ≠ 0%Z → Z.of_nat (size (∅ : gset cell)) ≠ wanted)
    by (by rewrite size_empty).
  unfold Minesweeper.__init__. split_and!.
  - intros e.
    destruct (Minesweeper.place_mines h w wanted draws ∅ (Minesweeper.empty_board h w))
      as [[m b] | e' |] eqn:Hp; [done | | done].
    intros [= ->].
    apply (place_mines_raises _ _ _ _ _ _ ∅) in Hp as (-> & Hd & Hsz); [| apply wf_empty].
    rewrite size_empty in Hsz. done.
  - intros Hwanted%Hempty Hh.
    by rewrite (proj1 (place_mines_empty_range h w wanted draws ∅ _ Hwanted)) by done.
  - intros Hwanted%Hempty Hh Hw d.
    by rewrite (proj2 (place_mines_empty_range h w wanted draws ∅ _ Hwanted)) by done.
Qed.

(** X19. Every layout inside the board can be built: for every set of cells
    of the board there is a run of the random number generator on which the
    constructor, asked for as many mines as the set has cells, returns a
    board whose mines are exactly this set. *)
Theorem every_layout_reachable (h w : Z) (M : gset cell) :
  M ⊆ grid h w →
  ∃ draws g, Minesweeper.__init__ h w (Z.of_nat (size M)) draws = Returned g
             ∧ Minesweeper.mines g = M.
Proof.
  intros HM.
  destruct (place_mines_reaches h w ∅ (elements M) ∅ (Minesweeper.empty_board h w))
    as [b Hb].
  - apply wf_empty.
  - apply NoDup_elements.
  - apply Forall_forall. intros c Hc%elem_of_elements. split; [by apply HM | set_solver].
  - exists ((λ c : cell, (Z.to_nat c.1, Z.to_nat c.2)) <$> elements M).
    exists (Minesweeper.mk h w M b ∅). split; [| done].
    unfold Minesweeper.__init__.
    rewrite size_empty, Nat.add_0_l in Hb.
    change (length (elements M)) with (size M) in Hb. rewrite Hb.
    cbn [mbind outcome_bind]. do 2 f_equal.
    rewrite (left_id_L ∅ (∪)). apply list_to_set_elements_L.
Qed.

Lemma every_layout_reachable_witness :
  ∃ draws g, Minesweeper.__init__ 2 3 2 draws = Returned g
             ∧ Minesweeper.mines g = {[ (0, 2); (1, 1) ]}%Z.
Proof.
  assert (H : ({[ (0, 2); (1, 1) ]}%Z : gset cell) ⊆ grid 2 3)
    by (apply (bool_decide_unpack _); vm_compute; exact I).
  pose proof (every_layout_reachable 2 3 _ H) as (draws & g & Hg & Hm).
  exists draws, g. split; [exact Hg | exact Hm].
Defined.

(** X20. On a board the constructor returned, [nearby_mines] never raises,
    for any cell inside or outside the board, and returns the number of
    mines among the neighbours of the cell that lie inside the board, a
    number between 0 and 8. *)
Theorem nearby_mines_spec (h w wanted : Z) (draws : list (nat * nat)) (g : Minesweeper.t)
    (c : cell) :
  Minesweeper.__init__ h w wanted draws = Returned g →
  ∃ n, Minesweeper.nearby_mines g c = Returned n
       ∧ n = Z.of_nat (size (neighbors h w c ∩ Minesweeper.mines g))
       ∧ (0 ≤ n ≤ 8)%Z.
Proof.
  intros (Hwf & Hh & Hw & _)%board_init_wf.
  eexists. split; [by apply nearby_mines_count |]. rewrite Hh, Hw. split; [done |].
  assert (size (neighbors h w c ∩ Minesweeper.mines g) ≤ size (around c)).
  { apply subseteq_size. intros x [[Hx _]%elem_of_in_grid _]%elem_of_intersection. done. }
  pose proof (size_around c). lia.
Qed.

Lemma nearby_mines_spec_witness :
  ∃ n, Minesweeper.nearby_mines
         (Minesweeper.mk 2 3 {[ (0, 2); (1, 1) ]}%Z
       [[false; false; true]; [false; true; false]] ∅) (0, 1)%Z = Returned n
       ∧ n = Z.of_nat (size (neighbors 2 3 (0, 1)%Z ∩ {[ (0, 2); (1, 1) ]}%Z))
       ∧ (0 ≤ n ≤ 8)%Z.
Proof.
  apply (nearby_mines_spec 2 3 2 [(1, 1); (3, 4); (0, 5)]). vm_compute. reflexivity.
Defined.

(** X21. On a board the constructor returned, [is_mine] reads the cell
    [(i mod height, j mod width)] when [-height <= i < height] and
    [-width <= j < width], so a negative index wraps around, and raises
    [IndexError] for every other cell. *)
Theorem is_mine_spec (h w wanted : Z) (draws : list (nat * nat)) (g : Minesweeper.t)
    (i j : Z) :
  Minesweeper.__init__ h w wanted draws = Returned g →
  Minesweeper.is_mine g (i, j)
  = if decide ((- h ≤ i < h)%Z ∧ (- w ≤ j < w)%Z)
    then Returned (bool_decide ((i `mod` h, j `mod` w)%Z ∈ Minesweeper.mines g))
    else Raised IndexError.
Proof.
  intros (Hwf & Hh & Hw & _)%board_init_wf. rewrite is_mine_wf by done. by rewrite Hh, Hw.
Qed.

Lemma is_mine_spec_witness :
  Minesweeper.is_mine
    (Minesweeper.mk 2 3 {[ (0, 2); (1, 1) ]}%Z
       [[false; false; true]; [false; true; false]] ∅) (-1, -2)%Z
  = Returned true.
Proof.
  rewrite (is_mine_spec 2 3 2 [(1, 1); (3, 4); (0, 5)]) by (vm_compute; reflexivity).
  vm_compute. reflexivity.
Defined.

(** X22. The board and the knowledge base together: when every cell passed
    to [add_knowledge] is one for which [is_mine] answered [False], with the
    count [nearby_mines] returned for it, then every cell the knowledge base
    holds as a mine is a mine of the board, no cell it holds as safe is one,
    and the move [make_safe_move] proposes, if any, is not a mine. *)
Theorem board_drives_knowledge (h w wanted : Z) (draws : list (nat * nat))
    (g : Minesweeper.t) (obs : list (cell * Z)) :
  Minesweeper.__init__ h w wanted draws = Returned g →
  Forall (λ o, Minesweeper.is_mine g o.1 = Returned false
               ∧ Minesweeper.nearby_mines g o.1 = Returned o.2) obs →
  ∃ ai, replay (__init__ h w) obs = Ok ai
        ∧ mines ai ⊆ Minesweeper.mines g
        ∧ safes ai ## Minesweeper.mines g
        ∧ (make_safe_move ai = None
           ∨ ∃ c, make_safe_move ai = Some c ∧ (c ∉ Minesweeper.mines g)).
Proof.
  intros (Hwf & Hh & Hw & _)%board_init_wf Hobs.
  assert (Htruth : Forall (truthful (Minesweeper.mines g) h w) obs).
  { eapply Forall_impl; [exact Hobs |]. intros [[i j] n] [Hm Hn]. cbn [fst snd] in *.
    split; cbn [fst snd].
    - intros Hin. rewrite is_mine_wf in Hm by done.
      pose proof Hwf as (_ & _ & Hsub & _).
      pose proof (Hsub _ Hin) as [Hi Hj]%elem_of_grid.
      rewrite decide_True, !Z.mod_small in Hm by lia.
      by rewrite bool_decide_eq_true_2 in Hm.
    - rewrite nearby_mines_count, Hh, Hw in Hn by done. by injection Hn. }
  destruct (consistent_replay (Minesweeper.mines g) obs (__init__ h w))
    as (ai & Hr & Hm & Hs & _); [apply consistent_init | done |].
  exists ai. split_and!; try done.
  destruct (make_safe_move_cases ai) as [(c & Hc & Hin & Hnp) | [Hn _]]; [right | by left].
  exists c. split; [done | set_solver].
Qed.

Lemma board_drives_knowledge_witness :
  ∃ ai, replay (__init__ 2 3) [((0, 0), 1); ((0, 1), 2)]%Z = Ok ai
        ∧ mines ai ⊆ {[ (0, 2); (1, 1) ]}%Z
        ∧ safes ai ## {[ (0, 2); (1, 1) ]}%Z.
Proof.
  destruct (board_drives_knowledge 2 3 2 [(1, 1); (3, 4); (0, 5)]
    (Minesweeper.mk 2 3 {[ (0, 2); (1, 1) ]}%Z
       [[false; false; true]; [false; true; false]] ∅)
    [((0, 0), 1); ((0, 1), 2)]%Z) as (ai & Hr & Hm & Hs & _).
  - vm_compute. reflexivity.
  - repeat constructor; vm_compute; reflexivity.
  - exists ai. split; [exact Hr |]. split; [exact Hm | exact Hs].
Defined.
